(** * The atlas-go Kafka event consumer: a shallow embedding

    The development follows the Go package [event] of atlas-go: topic
    descriptors and topic ids, the event envelope (event.go), the
    large-event uploader and downloader (externalevent.go), the publisher's
    upload threshold (publisher.go) and the partitioned consumer
    ([pollBatch], [run], [processPartition], [writePartitionedMessages],
    [handleMessage], [toEvent], [buildTopicRegexes]).

    Conventions.  A Go [string] or [[]byte] is a [string] (a list of
    bytes); a Go [int], [int32] or [time.Duration] is a [Z], with the
    64-bit wrap-around written out where arithmetic is done; a Go map is
    a [gmap]; a Go interface is a type class; a call on the Kafka client,
    the logger or the metrics registry is an [Effect] appended to a
    trace. *)

From Stdlib Require Import ZArith Lia Ascii String.
From stdpp Require Import base option list strings gmap fin_maps sorting.

Local Open Scope string_scope.
Local Open Scope Z_scope.
Local Open Scope list_scope.

(** ** Topics *)

Module Topics.

(** [type TopicScope int], with the three constants declared by [iota]. *)
Definition TopicScope := Z.
Definition TopicScopePod : TopicScope := 0.
Definition TopicScopeOrg : TopicScope := 1.
Definition TopicScopeGlobal : TopicScope := 2.

Definition TopicName := string.
Definition TopicID := string.
Definition Pod := string.
Definition Org := string.

(** The interface [TopicDescriptor]. *)
Class TopicDescriptor (T : Type) := {
  Scope : T → TopicScope;
  Name : T → TopicName
}.

Record SimpleTopicDescriptor := NewSimpleTopicDescriptor {
  std_scope : TopicScope;
  std_name : TopicName
}.

#[export] Instance SimpleTopicDescriptor_descr : TopicDescriptor SimpleTopicDescriptor :=
  {| Scope := std_scope; Name := std_name |}.

(** The three implementations of the interface [Topic]. *)
Inductive Topic :=
| globalTopic (name : TopicName)
| podTopic (pod : Pod) (name : TopicName)
| orgTopic (pod : Pod) (org : Org) (name : TopicName).

Definition Topic_Scope (t : Topic) : TopicScope :=
  match t with
  | globalTopic _ => TopicScopeGlobal
  | podTopic _ _ => TopicScopePod
  | orgTopic _ _ _ => TopicScopeOrg
  end.

Definition Topic_Name (t : Topic) : TopicName :=
  match t with
  | globalTopic n | podTopic _ n | orgTopic _ _ n => n
  end.

#[export] Instance Topic_descr : TopicDescriptor Topic :=
  {| Scope := Topic_Scope; Name := Topic_Name |}.

(** [strings.Split(s, "__")]: cut at every occurrence of the separator,
    found from the left; [cur] is the component being read. *)
Fixpoint splitUnderscores (s : string) (cur : string) : list string :=
  match s with
  | EmptyString => [cur]
  | String "_"%char (String "_"%char rest) => cur :: splitUnderscores rest ""
  | String c rest => splitUnderscores rest (cur +:+ String c "")
  end.

(** [strings.Join(components, "__")]. *)
Fixpoint joinUnderscores (components : list string) : string :=
  match components with
  | [] => ""
  | [c] => c
  | c :: cs => c +:+ "__" +:+ joinUnderscores cs
  end.

Definition buildTopicID (components : list string) : TopicID :=
  joinUnderscores components.

Definition Topic_ID (t : Topic) : TopicID :=
  match t with
  | globalTopic n => n
  | podTopic p n => buildTopicID [n; p]
  | orgTopic p o n => buildTopicID [n; p; o]
  end.

(** [ParseTopic]: one, two or three components; anything else is the
    error "invalid topic id". *)
Definition ParseTopic (id : string) : option Topic :=
  match splitUnderscores id "" with
  | [n] => Some (globalTopic n)
  | [n; p] => Some (podTopic p n)
  | [n; p; o] => Some (orgTopic p o n)
  | _ => None
  end.

(** [buildTopicRegexes]: the subscription strings of one descriptor.  The
    [switch] has no default: any other scope leaves [result] nil. *)
Definition buildTopicRegexes `{TopicDescriptor T} (topic : T) (pods : list Pod)
  : list string :=
  if (Scope topic =? TopicScopeGlobal)%Z then [Name topic]
  else if (Scope topic =? TopicScopePod)%Z then
    (λ p, Name topic +:+ "__" +:+ p) <$> pods
  else if (Scope topic =? TopicScopeOrg)%Z then
    (λ p, "^" +:+ Name topic +:+ "__" +:+ p +:+ "__.+") <$> pods
  else [].

End Topics.
Import Topics.

(** ** The Kafka client's data (confluent-kafka-go), as the consumer reads it *)

Module kafka.

(** [kafka.TopicPartition]: [Topic] is a [*string], nil for a message
    without a topic; [Error] is the per-partition error of a polled
    message. *)
Record TopicPartition := {
  Topic : option string;
  Partition : Z;
  Offset : Z;
  Error : option string
}.

Record Header := { HKey : string; HValue : string }.

Record Message := {
  MTopicPartition : TopicPartition;
  Value : string;
  Key : string;
  Headers : list Header
}.

(** What [Consumer.Poll] hands back: the cases of the type switch in
    [pollBatch], and [OtherEvent] for every event type the switch has no
    case for.  A nil event is [None] at the call site. *)
Inductive Event :=
| AssignedPartitions (parts : list TopicPartition)
| RevokedPartitions (parts : list TopicPartition)
| PolledMessage (m : Message)
| KafkaError (e : string)
| Stats (s : string)
| OtherEvent.

End kafka.

(** ** Events (event.go) *)

(** [Headers] is [map[string]string]; indexing a missing key yields the
    empty string. *)
Definition Headers := gmap string string.

Definition Headers_index (h : Headers) (k : string) : string :=
  default "" (h !! k).

Record Event := {
  EHeaders : Headers;
  ID : string;
  Timestamp : Z;
  Type_ : string;
  ContentJSON : string
}.

Definition HeaderKeyRequestID := "requestId".
Definition HeaderKeyTenantID := "tenantId".
Definition HeaderKeyPod := "pod".
Definition HeaderKeyOrg := "org".
Definition HeaderKeyPartitionKey := "partitionKey".
Definition HeaderKeyGroupID := "groupId".
Definition HeaderKeyIsCompactEvent := "isCompactedEvent".

(** ** What the package takes from Go's standard library

    [strings.EqualFold] and [encoding/json] are not part of the package;
    the development is parametric in them.  [json.Unmarshal] fails with
    [None]; [json.Marshal] fails with [None] (its callers then see a nil
    byte slice). *)
Class GoLib := {
  EqualFold : string → string → bool;
  jsonUnmarshalEvent : string → option Event;
  jsonUnmarshalString : string → option string;
  jsonMarshalEvent : Event → option string
}.

(** [strconv.ParseBool], from its documentation: it accepts 1, t, T, TRUE,
    true, True, 0, f, F, FALSE, false, False, and any other value is an
    error. *)
Definition ParseBool (s : string) : option bool :=
  if bool_decide (s ∈ ["1"; "t"; "T"; "TRUE"; "true"; "True"]) then Some true
  else if bool_decide (s ∈ ["0"; "f"; "F"; "FALSE"; "false"; "False"]) then Some false
  else None.

(** The interfaces [LargeEventStore] and [Handler].  An [error] is the
    text of the error; a nil error is [None]. *)
Class LargeEventStore (S : Type) := {
  Download : S → string → Event + string
}.

Class Handler (H : Type) := {
  HandleEvent : H → Topics.Topic → Event → option string
}.

(** [backoff.BackOff]: [NextBackOff] returns the wait and advances the
    policy, [Reset] returns it to its initial state. *)
Class BackOff (B : Type) := {
  NextBackOff : B → Z * B;
  Reset : B → B
}.

(** ** Large events (externalevent.go, publisher.go) *)

(** Go's [int] on the 64-bit platforms the service runs on. *)
Definition wrap64 (z : Z) : Z := (z + 2 ^ 63) `mod` 2 ^ 64 - 2 ^ 63.
Definition int_min : Z := - 2 ^ 63.
Definition int_max : Z := 2 ^ 63 - 1.

Record uploaderConfig := {
  uc_bucket : string;
  uploadThreshold : Z
}.

Record PublisherConfig := {
  PBootstrapServers : string;
  CompressionType : string;
  PMessageMaxBytes : Z;
  PExternalBucket : string
}.

(** The uploader configuration [NewPublisher] builds: the threshold is
    the maximum message size less 100 KB of padding, and 0 when that is
    negative. *)
Definition NewPublisher_uploaderConfig (config : PublisherConfig) : uploaderConfig :=
  let threshold := wrap64 (PMessageMaxBytes config - 100000) in
  {| uc_bucket := PExternalBucket config;
     uploadThreshold := if (threshold <? 0)%Z then 0 else threshold |}.

(** [len(eventJson)] after [eventJson, _ := json.Marshal(event)]. *)
Definition marshalledLength `{GoLib} (event : Event) : Z :=
  match jsonMarshalEvent event with
  | Some eventJson => Z.of_nat (String.length eventJson)
  | None => 0
  end.

(** [s3ExternalUploader.ShouldUpload]; a nil [*Event] is [None]. *)
Definition ShouldUpload `{GoLib} (s : uploaderConfig) (event : option Event) : bool :=
  match event with
  | None => false
  | Some e =>
      if bool_decide (uc_bucket s = "") then false
      else (uploadThreshold s <? marshalledLength e)%Z
  end.

(** [s3ExternalDownloader]: [s3get bucket key] is the S3 download, the
    object's bytes or the error of the transfer. *)
Record s3ExternalDownloader := {
  dc_bucket : string;
  s3get : string → string → string + string
}.

Definition s3Download `{GoLib} (s : s3ExternalDownloader) (location : string)
  : Event + string :=
  match s3get s (dc_bucket s) location with
  | inr err => inr err
  | inl bytes =>
      match jsonUnmarshalEvent bytes with
      | None => inr "json: cannot unmarshal"
      | Some event => inl event
      end
  end.

#[export] Instance s3ExternalDownloader_store `{GoLib} : LargeEventStore s3ExternalDownloader :=
  {| Download := s3Download |}.

(** ** The consumer *)

Record ConsumerConfig := {
  BootstrapServers : string;
  GroupID : string;
  ConfigTopics : list Topics.SimpleTopicDescriptor;
  Pods : list Topics.Pod;
  MessageMaxBytes : Z;
  MaxPartitionFetchBytes : Z;
  MaxPollIntervalMs : Z;
  SessionTimeoutMs : Z;
  HeartbeatIntervalMs : Z;
  AutoOffsetReset : string;
  ExternalBucket : string;
  PartitionAssignmentStrategy : string;
  MaxPollRecords : Z;
  MaxPartitionConcurrency : Z
}.

(** [kafkaEventConsumer].  The Kafka client handle is the trace of calls
    made on it; [normalizedMetric] is the answer of the feature flag read
    by [isNormalizedMetricEnabled]. *)
Record kafkaEventConsumer (S B : Type) := {
  config : ConsumerConfig;
  normalizedMetric : bool;
  largeEventStore : S;
  batchSize : Z;
  errorBackoff : B
}.
Arguments config {S B} _.
Arguments normalizedMetric {S B} _.
Arguments largeEventStore {S B} _.
Arguments batchSize {S B} _.
Arguments errorBackoff {S B} _.

(** [m[k] = append(m[k], x)] on a map of slices. *)
Definition appendAt {K A} `{Countable K} (m : gmap K (list A)) (k : K) (x : A)
  : gmap K (list A) :=
  <[k := default [] (m !! k) ++ [x]]> m.

(** Everything a map of slices holds. *)
Definition held {K A} `{Countable K} (m : gmap K (list A)) : list A :=
  mjoin (map_to_list m).*2.

(** [topicPartition], the key of a batch. *)
Definition topicPartition : Type := string * Z.

Definition newTopicPartition (tp : kafka.TopicPartition) : option topicPartition :=
  match kafka.Topic tp with
  | None => None
  | Some t => Some (t, kafka.Partition tp)
  end.

Definition toKafkaTopicPartition (tp : topicPartition) : kafka.TopicPartition :=
  {| kafka.Topic := Some tp.1; kafka.Partition := tp.2;
     kafka.Offset := 0; kafka.Error := None |}.

Record messageBatch := {
  messages : gmap topicPartition (list kafka.Message);
  messageCount : Z
}.

Definition newMessageBatch : messageBatch :=
  {| messages := ∅; messageCount := 0 |}.

(** [addMessage]: [None] is the error "topic is required". *)
Definition addMessage (b : messageBatch) (msg : kafka.Message) : option messageBatch :=
  match newTopicPartition (kafka.MTopicPartition msg) with
  | None => None
  | Some tp =>
      Some {| messages := appendAt (messages b) tp msg;
              messageCount := wrap64 (messageCount b + 1) |}
  end.

(** The count of a batch is the number of messages it holds, and each of
    them has a topic. *)
Definition batchCounted (b : messageBatch) : Prop :=
  messageCount b = Z.of_nat (length (held (messages b)))
  ∧ Forall (λ m, is_Some (kafka.Topic (kafka.MTopicPartition m))) (held (messages b)).

(** Everything the consumer does to the outside: log lines (by their
    format string), metrics (by name and labels; the observed durations
    are wall-clock time and are left out), the handler call with the
    error it returned, and the calls on the Kafka client. *)
Inductive Effect :=
| LogInfof (format : string)
| LogWarnf (format : string)
| LogErrorf (format : string)
| NilDereference
| CallHandleEvent (topic : Topics.Topic) (event : Event) (err : option string)
| CounterInc (metric : string) (labels : gmap string string)
| Observe (metric : string) (labels : gmap string string)
| SubscribeTopics (topics : list string)
| Poll (timeoutMs : Z)
| Assign (parts : list kafka.TopicPartition)
| Unassign
| GoReportConsumerLag (stats : string)
| Sleep (d : Z)
| BackoffReset
| Pause (tp : kafka.TopicPartition)
| GoProcessPartition (tp : kafka.TopicPartition) (msgs : list kafka.Message).

(** The test both group guards of [handleMessage] make on a group id:
    [groupID != "" && !strings.EqualFold(groupID, c.config.GroupID)]. *)
Definition targetedElsewhere `{GoLib} (groupID configured : string) : bool :=
  bool_decide (groupID ≠ "") && negb (EqualFold groupID configured).

(** The errors of [toEvent], one per [fmt.Errorf] in it. *)
Inductive toEventError :=
| ErrParseEvent
| ErrParseLocation (contentJSON : string)
| ErrDownload (s3ObjectKey : string) (err : string).

Section Consumer.
Context `{GoLib} {St Hd B : Type} `{!LargeEventStore St} `{!Handler Hd}.

(** [getHeader]: the value of the first header whose key equals [key]
    under case folding, and the empty string when there is none. *)
Fixpoint getHeader_from (headers : list kafka.Header) (key : string) : string :=
  match headers with
  | [] => ""
  | value :: rest =>
      if EqualFold (kafka.HKey value) key then kafka.HValue value
      else getHeader_from rest key
  end.

Definition getHeader (msg : kafka.Message) (key : string) : string :=
  getHeader_from (kafka.Headers msg) key.

(** [getHeaderBool]: a value [ParseBool] rejects reads as [false]. *)
Definition getHeaderBool (msg : kafka.Message) (key : string) : bool :=
  default false (ParseBool (getHeader msg key)).

(** [toEvent]: the envelope parsed from the payload, or for a compact event
    the event downloaded from the key held in the envelope's content. *)
Definition toEvent (c : kafkaEventConsumer St B) (topic : Topics.Topic)
    (msg : kafka.Message) : Event + toEventError :=
  match jsonUnmarshalEvent (kafka.Value msg) with
  | None => inr ErrParseEvent
  | Some rawEvent =>
      if negb (getHeaderBool msg HeaderKeyIsCompactEvent) then inl rawEvent
      else
        match jsonUnmarshalString (ContentJSON rawEvent) with
        | None => inr (ErrParseLocation (ContentJSON rawEvent))
        | Some s3ObjectKey =>
            match Download (largeEventStore c) s3ObjectKey with
            | inr err => inr (ErrDownload s3ObjectKey err)
            | inl event => inl event
            end
        end
  end.

Definition isNormalizedMetricEnabled (c : kafkaEventConsumer St B) : bool :=
  normalizedMetric c.

Definition labels (topic : Topics.Topic) (event : Event) : gmap string string :=
  list_to_map
    [("pod", Headers_index (EHeaders event) HeaderKeyPod);
     ("org", Headers_index (EHeaders event) HeaderKeyOrg);
     ("name", Topics.Name topic);
     ("eventType", Type_ event);
     ("groupId", Headers_index (EHeaders event) HeaderKeyGroupID)].

Definition reducedLabels (topic : Topics.Topic) (event : Event) : gmap string string :=
  list_to_map
    [("pod", Headers_index (EHeaders event) HeaderKeyPod);
     ("name", Topics.Name topic);
     ("eventType", Type_ event);
     ("groupId", Headers_index (EHeaders event) HeaderKeyGroupID)].

(** The tail of [handleMessage], from the handler call on. *)
Definition invokeHandler (c : kafkaEventConsumer St B) (handler : Hd)
    (topic : Topics.Topic) (event : Event) : list Effect :=
  let err := HandleEvent handler topic event in
  [CallHandleEvent topic event err]
  ++ match err with
     | Some _ =>
         LogErrorf "event handler failed: %v"
         :: (if isNormalizedMetricEnabled c
             then [CounterInc "eventHandlerFailed" (labels topic event)] else [])
     | None =>
         if isNormalizedMetricEnabled c
         then [CounterInc "eventHandlerSuccess" (labels topic event)] else []
     end
  ++ (if isNormalizedMetricEnabled c
      then [Observe "eventHandlerDurationSummary" (labels topic event);
            Observe "eventProcessingLatency" (reducedLabels topic event);
            Observe "eventHandlerDuration" (reducedLabels topic event)]
      else []).

(** [handleMessage].  It has no result: what it does is the list of its
    effects.  [*msg.TopicPartition.Topic] on a nil topic is the only way it
    can fail, and [addMessage] keeps such messages out of every batch. *)
Definition handleMessage (c : kafkaEventConsumer St B) (msg : kafka.Message)
    (handler : Hd) : list Effect :=
  if targetedElsewhere (getHeader msg HeaderKeyGroupID) (GroupID (config c))
  then []
  else
    match kafka.Topic (kafka.MTopicPartition msg) with
    | None => [NilDereference]
    | Some id =>
        match Topics.ParseTopic id with
        | None => [LogErrorf "invalid topic: %v"]
        | Some topic =>
            match toEvent c topic msg with
            | inr _ => [LogErrorf "error converting message to event: %v"]
            | inl event =>
                if targetedElsewhere (Headers_index (EHeaders event) HeaderKeyGroupID)
                                     (GroupID (config c))
                then [LogWarnf "skipping event targeted at group: %s"]
                else invokeHandler c handler topic event
            end
        end
    end.

(** [handleMessages]: the handler on each message of a run, in order. *)
Definition handleMessages (c : kafkaEventConsumer St B) (msgs : list kafka.Message)
    (handler : Hd) : list (kafka.Message * list Effect) :=
  (λ msg, (msg, handleMessage c msg handler)) <$> msgs.

End Consumer.

(** *** Key runs: [writePartitionedMessages] *)

(** [byKey[key] = append(byKey[key], msg)]. *)
Definition appendRun (byKey : gmap string (list kafka.Message)) (msg : kafka.Message)
  : gmap string (list kafka.Message) :=
  appendAt byKey (kafka.Key msg) msg.

(** The first loop of [writePartitionedMessages]: the singleton runs it
    sends, in the order it sends them, and [byKey] when it ends. *)
Fixpoint groupByKey (msgs : list kafka.Message) (byKey : gmap string (list kafka.Message))
  : list (list kafka.Message) * gmap string (list kafka.Message) :=
  match msgs with
  | [] => ([], byKey)
  | msg :: rest =>
      if bool_decide (kafka.Key msg = "")
      then let '(singles, m) := groupByKey rest byKey in ([msg] :: singles, m)
      else groupByKey rest (appendRun byKey msg)
  end.

(** [writePartitionedMessages messages out]: [out] is a sequence of runs
    the function may write to its channel.  The second loop ranges over a
    Go map, whose iteration order is not fixed: every order of the keyed
    runs is a possible output. *)
Definition writePartitionedMessages (msgs : list kafka.Message)
    (out : list (list kafka.Message)) : Prop :=
  ∃ keyed, keyed ≡ₚ (map_to_list (groupByKey msgs ∅).2).*2
           ∧ out = (groupByKey msgs ∅).1 ++ keyed.

(** The messages of [msgs] that bear [key], in the order of [msgs], and
    the keys of [msgs] other than the empty one. *)
Definition runFor (key : string) (msgs : list kafka.Message) : list kafka.Message :=
  filter (λ m, kafka.Key m = key) msgs.

Definition keysOf (msgs : list kafka.Message) : gset string :=
  list_to_set (filter (λ k, k ≠ "") (kafka.Key <$> msgs)).

(** *** One partition's batch: [processPartition]

    The function starts [workerCount] goroutines that receive runs from an
    unbuffered channel, writes the runs, closes the channel, waits for the
    workers and then stores every offset.  Its executions are the
    interleavings of the steps below. *)

(** Where the goroutine that runs [processPartition] stands. *)
Inductive Main :=
| Writing (rest : list kafka.Message) (byKey : gmap string (list kafka.Message))
| Ranging (todo : gmap string (list kafka.Message))
| Waiting
| Storing (rest : list kafka.Message)
| Returned.

(** Where a worker stands: blocked on the channel, inside
    [handleMessages] with the messages still to handle, or finished. *)
Inductive Worker :=
| Receiving
| Handling (partition : list kafka.Message)
| Finished.

(** What an execution does, in the order it does it. *)
Inductive PEvent :=
| Handled (msg : kafka.Message) (effects : list Effect)
| StoreMessage (msg : kafka.Message)
| Resume (tp : kafka.TopicPartition).

Record PState := {
  main : Main;
  workers : list Worker;
  ptrace : list PEvent
}.

Definition workerCount (c : ConsumerConfig) (msgs : list kafka.Message) : Z :=
  if (MaxPartitionConcurrency c <? 1)%Z then Z.of_nat (length msgs)
  else MaxPartitionConcurrency c.

Section ProcessPartition.
Context `{GoLib} {St Hd B : Type} `{!LargeEventStore St} `{!Handler Hd}.
Variables (c : kafkaEventConsumer St B) (tp : kafka.TopicPartition)
          (msgs : list kafka.Message) (handler : Hd).

Definition processPartition_init : PState :=
  {| main := Writing msgs ∅;
     workers := replicate (Z.to_nat (workerCount (config c) msgs)) Receiving;
     ptrace := [] |}.

Inductive processPartition_step : PState → PState → Prop :=
(* out <- []*kafka.Message{msg}: a worker blocked on the channel takes it *)
| step_send_single msg rest byKey ws i tr :
    kafka.Key msg = "" →
    ws !! i = Some Receiving →
    processPartition_step
      {| main := Writing (msg :: rest) byKey; workers := ws; ptrace := tr |}
      {| main := Writing rest byKey; workers := <[i := Handling [msg]]> ws; ptrace := tr |}
(* byKey[key] = append(byKey[key], msg) *)
| step_group msg rest byKey ws tr :
    kafka.Key msg ≠ "" →
    processPartition_step
      {| main := Writing (msg :: rest) byKey; workers := ws; ptrace := tr |}
      {| main := Writing rest (appendRun byKey msg); workers := ws; ptrace := tr |}
(* the first loop ends, the range over byKey starts *)
| step_range byKey ws tr :
    processPartition_step
      {| main := Writing [] byKey; workers := ws; ptrace := tr |}
      {| main := Ranging byKey; workers := ws; ptrace := tr |}
(* out <- messagesForKey, for a key the range has not visited yet *)
| step_send_run todo key run ws i tr :
    todo !! key = Some run →
    ws !! i = Some Receiving →
    processPartition_step
      {| main := Ranging todo; workers := ws; ptrace := tr |}
      {| main := Ranging (delete key todo); workers := <[i := Handling run]> ws;
         ptrace := tr |}
(* close(partitions); wg.Wait() *)
| step_close ws tr :
    processPartition_step
      {| main := Ranging ∅; workers := ws; ptrace := tr |}
      {| main := Waiting; workers := ws; ptrace := tr |}
(* c.handleMessage(ctx, msg, handler) inside handleMessages *)
| step_handle m ws i msg rest tr :
    ws !! i = Some (Handling (msg :: rest)) →
    processPartition_step
      {| main := m; workers := ws; ptrace := tr |}
      {| main := m; workers := <[i := Handling rest]> ws;
         ptrace := tr ++ [Handled msg (handleMessage c msg handler)] |}
(* handleMessages returns, the worker receives again *)
| step_next m ws i tr :
    ws !! i = Some (Handling []) →
    processPartition_step
      {| main := m; workers := ws; ptrace := tr |}
      {| main := m; workers := <[i := Receiving]> ws; ptrace := tr |}
(* the range over the closed channel ends: wg.Done() *)
| step_exit ws i tr :
    ws !! i = Some Receiving →
    processPartition_step
      {| main := Waiting; workers := ws; ptrace := tr |}
      {| main := Waiting; workers := <[i := Finished]> ws; ptrace := tr |}
(* wg.Wait() returns when every worker is done *)
| step_wait ws tr :
    Forall (λ w, w = Finished) ws →
    processPartition_step
      {| main := Waiting; workers := ws; ptrace := tr |}
      {| main := Storing msgs; workers := ws; ptrace := tr |}
(* c.storeMessage(ctx, msg) *)
| step_store msg rest ws tr :
    processPartition_step
      {| main := Storing (msg :: rest); workers := ws; ptrace := tr |}
      {| main := Storing rest; workers := ws; ptrace := tr ++ [StoreMessage msg] |}
(* the deferred c.resume(ctx, topicPartition) *)
| step_resume ws tr :
    processPartition_step
      {| main := Storing []; workers := ws; ptrace := tr |}
      {| main := Returned; workers := ws; ptrace := tr ++ [Resume tp] |}.

(** The states [processPartition] can be in. *)
Definition processPartition_reach (s : PState) : Prop :=
  rtc processPartition_step processPartition_init s.

End ProcessPartition.

(** The messages handled, and the messages stored, by a trace. *)
Definition handled (tr : list PEvent) : list kafka.Message :=
  omap (λ e, match e with Handled m _ => Some m | _ => None end) tr.

Definition stored (tr : list PEvent) : list kafka.Message :=
  omap (λ e, match e with StoreMessage m => Some m | _ => None end) tr.

(** The messages a worker holds and has not handled yet, the messages in
    the hands of all workers, and the messages the writing goroutine has
    not handed over yet. *)
Definition runOf (w : Worker) : list kafka.Message :=
  match w with Handling p => p | _ => [] end.

Definition inflight (ws : list Worker) : list kafka.Message := ws ≫= runOf.

Definition pending (m : Main) : list kafka.Message :=
  match m with
  | Writing rest byKey => held byKey ++ rest
  | Ranging todo => held todo
  | _ => []
  end.

(** Every store of the trace comes after the whole batch [msgs] was
    handled, and the stores follow the order of [msgs]. *)
Definition storesAfterBatch (msgs : list kafka.Message) (tr : list PEvent) : Prop :=
  ∀ pre m post,
    tr = pre ++ StoreMessage m :: post →
    handled pre ≡ₚ msgs ∧ stored pre ++ [m] `prefix_of` msgs.

(** A worker once it has handled the run it holds. *)
Definition settle (w : Worker) : Worker :=
  match w with Handling _ => Receiving | _ => w end.

(** The workers of every state of [processPartition]: there are [n] of
    them, none has finished while the runs are written, all have finished
    once the barrier is passed; and with an empty batch nothing is left to
    write. *)
Definition processPartition_workers (msgs : list kafka.Message) (n : nat) (s : PState)
  : Prop :=
  length (workers s) = n
  ∧ match main s with
    | Writing rest byKey =>
        Forall (λ w, w ≠ Finished) (workers s) ∧ (msgs = [] → rest = [] ∧ byKey = ∅)
    | Ranging todo =>
        Forall (λ w, w ≠ Finished) (workers s) ∧ (msgs = [] → todo = ∅)
    | Waiting => True
    | Storing _ | Returned => Forall (λ w, w = Finished) (workers s)
    end.

(** What holds in every state of [processPartition]. *)
Definition processPartition_inv (msgs : list kafka.Message) (s : PState) : Prop :=
  storesAfterBatch msgs (ptrace s)
  ∧ match main s with
    | Storing rest =>
        Forall (λ w, w = Finished) (workers s)
        ∧ handled (ptrace s) ≡ₚ msgs ∧ stored (ptrace s) ++ rest = msgs
    | Returned =>
        Forall (λ w, w = Finished) (workers s)
        ∧ handled (ptrace s) ≡ₚ msgs ∧ stored (ptrace s) = msgs
    | m =>
        stored (ptrace s) = []
        ∧ handled (ptrace s) ++ inflight (workers s) ++ pending m ≡ₚ msgs
    end.

(** *** Polling: [pollBatch] and [run]

    The outside world of the poll loop is what its two blocking reads
    return: [ctxDone] holds the answers of the successive
    [select { case <-ctx.Done() }] checks, [polls] the successive results of
    [Consumer.Poll] ([None] for a nil event).  A model that needs an answer
    the world does not hold is [Blocked]. *)
Record World := {
  ctxDone : list bool;
  polls : list (option kafka.Event)
}.

Inductive pollError :=
| CtxErr
| KafkaErr (e : string).

Inductive Result (A : Type) :=
| Returns (a : A)
| Blocked.
Arguments Returns {A} a.
Arguments Blocked {A}.

Record Run (A : Type) := {
  result : Result A;
  effects : list Effect;
  world : World
}.
Arguments result {A} _.
Arguments effects {A} _.
Arguments world {A} _.

(** [emit es r]: [r], after the effects [es]. *)
Definition emit {A} (es : list Effect) (r : Run A) : Run A :=
  {| result := result r; effects := es ++ effects r; world := world r |}.

(** The loop of [pollBatch].  The client's own errors on [Assign] and
    [Unassign] are only logged and are left out. *)
Fixpoint pollBatch_loop (batchSize : Z) (polls : list (option kafka.Event))
    (ctxDone : list bool) (batch : messageBatch)
  : Run (messageBatch * option pollError) :=
  let stop r ctx := {| result := r; effects := [];
                       world := {| ctxDone := ctx; polls := polls |} |} in
  if (messageCount batch <? batchSize)%Z then
    match ctxDone with
    | [] => stop Blocked []
    | true :: ctx' => stop (Returns (batch, Some CtxErr)) ctx'
    | false :: ctx' =>
        let timeout := if (0 <? messageCount batch)%Z then 0 else 5000 in
        match polls with
        | [] => stop Blocked ctx'
        | None :: polls' =>
            {| result := Returns (batch, None); effects := [Poll timeout];
               world := {| ctxDone := ctx'; polls := polls' |} |}
        | Some ev :: polls' =>
            match ev with
            | kafka.AssignedPartitions parts =>
                emit [Poll timeout; LogInfof "assigned partitions: %v"; Assign parts]
                     (pollBatch_loop batchSize polls' ctx' batch)
            | kafka.RevokedPartitions parts =>
                emit [Poll timeout; CounterInc "eventConsumerPartitionsRevokedFreq" ∅;
                      LogInfof "revoked partitions: %v"; Unassign]
                     (pollBatch_loop batchSize polls' ctx' batch)
            | kafka.PolledMessage e =>
                match kafka.Error (kafka.MTopicPartition e) with
                | Some _ =>
                    emit [Poll timeout; LogErrorf "topic partition error: %v"]
                         (pollBatch_loop batchSize polls' ctx' batch)
                | None =>
                    match addMessage batch e with
                    | None =>
                        emit [Poll timeout; LogWarnf "error adding message to batch: %v"]
                             (pollBatch_loop batchSize polls' ctx' batch)
                    | Some batch' =>
                        emit [Poll timeout] (pollBatch_loop batchSize polls' ctx' batch')
                    end
                end
            | kafka.KafkaError e =>
                {| result := Returns (batch, if (0 <? messageCount batch)%Z
                                             then None else Some (KafkaErr e));
                   effects := [Poll timeout; LogErrorf "kafka error: %v"];
                   world := {| ctxDone := ctx'; polls := polls' |} |}
            | kafka.Stats s =>
                emit [Poll timeout; GoReportConsumerLag s]
                     (pollBatch_loop batchSize polls' ctx' batch)
            | kafka.OtherEvent =>
                emit [Poll timeout] (pollBatch_loop batchSize polls' ctx' batch)
            end
        end
    end
  else stop (Returns (batch, None)) ctxDone.

Definition pollBatch {St B} (c : kafkaEventConsumer St B) (w : World)
  : Run (messageBatch * option pollError) :=
  pollBatch_loop (batchSize c) (polls w) (ctxDone w) newMessageBatch.

(** The dispatch loop of [run]: pause each partition of the batch and
    start its [processPartition].  The range is over a Go map; the
    partitions are listed here in the order of [map_to_list]. *)
Definition dispatch (batch : messageBatch) : list Effect :=
  '(tp, msgs) ← map_to_list (messages batch);
  [Pause (toKafkaTopicPartition tp);
   GoProcessPartition (toKafkaTopicPartition tp) msgs].

Section Run.
Context {St B : Type} `{!BackOff B}.

Definition withBackoff (c : kafkaEventConsumer St B) (b : B) : kafkaEventConsumer St B :=
  {| config := config c; normalizedMetric := normalizedMetric c;
     largeEventStore := largeEventStore c; batchSize := batchSize c;
     errorBackoff := b |}.

(** What [run] does with the outcome of one [pollBatch]: the effects, and
    the consumer the next iteration starts from. *)
Definition afterPoll (c : kafkaEventConsumer St B)
    (polled : messageBatch * option pollError)
  : list Effect * kafkaEventConsumer St B :=
  match polled.2 with
  | Some _ =>
      let '(sleepDuration, b) := NextBackOff (errorBackoff c) in
      ([LogErrorf "error polling kafka, sleeping for %s: %e"; Sleep sleepDuration],
       withBackoff c b)
  | None =>
      (BackoffReset ::
         (if bool_decide (messageCount polled.1 = 0) then [] else dispatch polled.1),
       withBackoff c (Reset (errorBackoff c)))
  end.

(** The [for] loop of [run]; [fuel] bounds the iterations the model
    follows.  [run] returns only when the context is done. *)
Fixpoint run_loop (fuel : nat) (c : kafkaEventConsumer St B) (w : World)
  : Run pollError :=
  match fuel with
  | O => {| result := Blocked; effects := []; world := w |}
  | Datatypes.S fuel' =>
      match ctxDone w with
      | [] => {| result := Blocked; effects := []; world := w |}
      | true :: ctx' =>
          {| result := Returns CtxErr; effects := [];
             world := {| ctxDone := ctx'; polls := polls w |} |}
      | false :: ctx' =>
          let p := pollBatch c {| ctxDone := ctx'; polls := polls w |} in
          match result p with
          | Blocked => {| result := Blocked; effects := effects p; world := world p |}
          | Returns polled =>
              let '(es, c') := afterPoll c polled in
              emit (effects p ++ es) (run_loop fuel' c' (world p))
          end
      end
  end.

(** The topics [run] subscribes to. *)
Definition subscriptions (cfg : ConsumerConfig) : list string :=
  t ← ConfigTopics cfg; buildTopicRegexes t (Pods cfg).

(** [run]: the subscription, then the loop.  An error of the client on
    [SubscribeTopics] ends [run] before the loop and is left out. *)
Definition run (fuel : nat) (c : kafkaEventConsumer St B) (w : World) : Run pollError :=
  emit [LogInfof "subscribing to topics: %v"; SubscribeTopics (subscriptions (config c))]
       (run_loop fuel c w).

End Run.

(** The waits of [n] failed polls in a row, from the policy [b]. *)
Fixpoint waits {B} `{!BackOff B} (n : nat) (b : B) : list Z :=
  match n with
  | O => []
  | Datatypes.S n' => (NextBackOff b).1 :: waits n' (NextBackOff b).2
  end.

(** ** The error backoff *)

Module Backoff.

(** Modelled from the spec: the vendored package
    github.com/cenkalti/backoff/v4 ([NewExponentialBackOff], [NextBackOff],
    [Reset]) is not among the sources.  The spec describes it as an
    exponential backoff with a cap: the wait starts at a base interval,
    grows by a constant factor from one failure to the next, never exceeds
    the cap, and returns to the base interval after a reset.  The factor
    is the fraction [MultiplierNum / MultiplierDen]; durations are in
    nanoseconds. *)
Record ExponentialBackOff := {
  InitialInterval : Z;
  MultiplierNum : Z;
  MultiplierDen : Z;
  MaxInterval : Z;
  currentInterval : Z
}.

Definition NewExponentialBackOff (base num den defaultMax : Z) : ExponentialBackOff :=
  {| InitialInterval := base; MultiplierNum := num; MultiplierDen := den;
     MaxInterval := defaultMax; currentInterval := base |}.

Definition setMaxInterval (b : ExponentialBackOff) (d : Z) : ExponentialBackOff :=
  {| InitialInterval := InitialInterval b; MultiplierNum := MultiplierNum b;
     MultiplierDen := MultiplierDen b; MaxInterval := d;
     currentInterval := currentInterval b |}.

Definition next (b : ExponentialBackOff) : Z * ExponentialBackOff :=
  (Z.min (currentInterval b) (MaxInterval b),
   {| InitialInterval := InitialInterval b; MultiplierNum := MultiplierNum b;
      MultiplierDen := MultiplierDen b; MaxInterval := MaxInterval b;
      currentInterval :=
        Z.min (MaxInterval b) (currentInterval b * MultiplierNum b / MultiplierDen b) |}).

Definition reset (b : ExponentialBackOff) : ExponentialBackOff :=
  {| InitialInterval := InitialInterval b; MultiplierNum := MultiplierNum b;
     MultiplierDen := MultiplierDen b; MaxInterval := MaxInterval b;
     currentInterval := InitialInterval b |}.

#[export] Instance ExponentialBackOff_BackOff : BackOff ExponentialBackOff :=
  {| NextBackOff := next; Reset := reset |}.

(** [time.Second], and the cap [newKafkaEventConsumer] sets. *)
Definition Second : Z := 1000000000.
Definition errorBackoffCap : Z := 30 * Second.

(** A policy with base interval [base], capped as the consumer caps it,
    that grows. *)
Definition capped (base : Z) (b : ExponentialBackOff) : Prop :=
  InitialInterval b = base ∧ MaxInterval b = errorBackoffCap
  ∧ 0 ≤ base ≤ errorBackoffCap
  ∧ 0 < MultiplierDen b ≤ MultiplierNum b
  ∧ base ≤ currentInterval b.

(** The policy [b] comes after a wait of [p], or after a reset. *)
Definition follows (prev : option Z) (b : ExponentialBackOff) : Prop :=
  match prev with
  | None => currentInterval b = InitialInterval b
  | Some p => p ≤ Z.min (currentInterval b) (MaxInterval b)
  end.

End Backoff.
Import Backoff.

(** [newKafkaEventConsumer]: the batch size defaults to 64, the error
    backoff is a fresh exponential backoff capped at 30 seconds.  The
    Kafka client it creates is the trace; [fresh] is the policy
    [backoff.NewExponentialBackOff()] returns. *)
Definition newKafkaEventConsumer `{GoLib} (config : ConsumerConfig)
    (metricsEnabled : bool) (s3 : string → string → string + string)
    (fresh : ExponentialBackOff)
  : kafkaEventConsumer s3ExternalDownloader ExponentialBackOff :=
  {| config := config;
     normalizedMetric := metricsEnabled;
     largeEventStore := {| dc_bucket := ExternalBucket config; s3get := s3 |};
     batchSize := if (MaxPollRecords config <=? 0)%Z then 64 else MaxPollRecords config;
     errorBackoff := setMaxInterval fresh errorBackoffCap |}.

(** [HandlerFunc]: a function is a handler. *)
#[export] Instance HandlerFunc : Handler (Topic → Event → option string) :=
  {| HandleEvent f := f |}.

(** ** Reading a trace *)

Definition isHandlerCall (e : Effect) : bool :=
  match e with CallHandleEvent _ _ _ => true | _ => false end.

Definition isLog (e : Effect) : bool :=
  match e with LogInfof _ | LogWarnf _ | LogErrorf _ => true | _ => false end.

Definition isSleep (e : Effect) : bool :=
  match e with Sleep _ => true | _ => false end.

(** The handler was called somewhere in [es]. *)
Definition handlerInvoked (es : list Effect) : bool := existsb isHandlerCall es.

(** [es] only writes to the log. *)
Definition logOnly (es : list Effect) : bool := forallb isLog es.

(** An effect that neither waits nor resets the backoff. *)
Definition backoffNeutral (e : Effect) : Prop :=
  match e with Sleep _ | BackoffReset => False | _ => True end.

(** The waits of a trace follow the backoff discipline: after a reset (or
    at the start, [prev = None]) the wait is [base]; otherwise it is at
    least the wait before it; and it never exceeds [cap]. *)
Fixpoint backoffDiscipline (base cap : Z) (prev : option Z) (es : list Effect) : Prop :=
  match es with
  | [] => True
  | Sleep d :: es' =>
      match prev with None => d = base | Some p => p ≤ d end
      ∧ d ≤ cap ∧ backoffDiscipline base cap (Some d) es'
  | BackoffReset :: es' => backoffDiscipline base cap None es'
  | _ :: es' => backoffDiscipline base cap prev es'
  end.

(** ** A small instance to run the definitions on

    ASCII case folding for [strings.EqualFold], and a JSON codec that knows
    four payloads by name. *)

Module Fixture.

Definition asciiLower (a : ascii) : ascii :=
  let n := nat_of_ascii a in
  if (65 <=? n)%nat && (n <=? 90)%nat then ascii_of_nat (n + 32) else a.

Fixpoint EqualFold_ascii (s t : string) : bool :=
  match s, t with
  | EmptyString, EmptyString => true
  | String a s', String b t' =>
      Ascii.eqb (asciiLower a) (asciiLower b) && EqualFold_ascii s' t'
  | _, _ => false
  end.

Definition event (headers : list (string * string)) (id type content : string) : Event :=
  {| EHeaders := list_to_map headers; ID := id; Timestamp := 0;
     Type_ := type; ContentJSON := content |}.

Definition plainEvent : Event :=
  event [("groupId", "Mine"); ("pod", "dev")] "1" "CREATED" "content-1".
Definition placeholderEvent : Event :=
  event [("isCompactedEvent", "true")] "2" "CREATED" "quoted-key".
Definition largeEvent : Event :=
  event [("pod", "dev")] "2" "CREATED" "a-very-long-content".
Definition foreignEvent : Event :=
  event [("GROUPID", "other")] "3" "CREATED" "content-3".
Definition otherGroupEvent : Event :=
  event [("groupId", "other")] "4" "CREATED" "content-4".

Definition unmarshalEvent (data : string) : option Event :=
  if bool_decide (data = "plain") then Some plainEvent
  else if bool_decide (data = "placeholder") then Some placeholderEvent
  else if bool_decide (data = "large") then Some largeEvent
  else if bool_decide (data = "foreign") then Some foreignEvent
  else if bool_decide (data = "other-group") then Some otherGroupEvent
  else None.

Definition unmarshalString (data : string) : option string :=
  if bool_decide (data = "quoted-key") then Some "identity/event-created-2.json"
  else None.

#[export] Instance lib : GoLib :=
  {| EqualFold := EqualFold_ascii;
     jsonUnmarshalEvent := unmarshalEvent;
     jsonUnmarshalString := unmarshalString;
     jsonMarshalEvent e := Some (ContentJSON e) |}.

Definition s3 (bucket key : string) : string + string :=
  if bool_decide (key = "identity/event-created-2.json") then inl "large"
  else inr "NoSuchKey".

Definition cfg : ConsumerConfig :=
  {| BootstrapServers := "localhost:9092"; GroupID := "mine";
     ConfigTopics := [NewSimpleTopicDescriptor TopicScopePod "identity"];
     Pods := ["dev"]; MessageMaxBytes := 1000000;
     MaxPartitionFetchBytes := 1048576; MaxPollIntervalMs := 300000;
     SessionTimeoutMs := 45000; HeartbeatIntervalMs := 3000;
     AutoOffsetReset := "earliest"; ExternalBucket := "bucket";
     PartitionAssignmentStrategy := "range"; MaxPollRecords := 2;
     MaxPartitionConcurrency := 2 |}.

Definition fresh : ExponentialBackOff :=
  NewExponentialBackOff (Second / 2) 3 2 (60 * Second).

Definition consumer : kafkaEventConsumer s3ExternalDownloader ExponentialBackOff :=
  newKafkaEventConsumer cfg false s3 fresh.

Definition message (topic : string) (offset : Z) (key value : string)
    (headers : list (string * string)) : kafka.Message :=
  {| kafka.MTopicPartition :=
       {| kafka.Topic := Some topic; kafka.Partition := 0;
          kafka.Offset := offset; kafka.Error := None |};
     kafka.Value := value; kafka.Key := key;
     kafka.Headers := (λ kv, {| kafka.HKey := kv.1; kafka.HValue := kv.2 |}) <$> headers |}.

Definition succeed : Topic → Event → option string := λ _ _, None.
Definition fail : Topic → Event → option string := λ _ _, Some "boom".

(** A batch of two records of one partition, the first without a key, and
    the state of an execution of [processPartition] on it in which the two
    workers handled the second record before the first. *)
Definition partition0 : kafka.TopicPartition := toKafkaTopicPartition ("identity__dev", 0).
Definition m1 : kafka.Message := message "identity__dev" 0 "" "plain" [].
Definition m2 : kafka.Message :=
  message "identity__dev" 1 "k" "placeholder" [("isCompactedEvent", "true")].
Definition batch : list kafka.Message := [m1; m2].

Definition a1 : kafka.Message := message "identity__dev" 2 "a" "plain" [].
Definition a2 : kafka.Message := message "identity__dev" 3 "a" "large" [].
Definition b1 : kafka.Message := message "identity__dev" 4 "b" "plain" [].

(** The batch [pollBatch] holds after it polled [m1]. *)
Definition polledOne : messageBatch :=
  {| messages := {[ ("identity__dev", 0) := [m1] ]}; messageCount := 1 |}.

(** Records for the group guards: a Kafka header for another group, a
    Kafka header for this group in another case, an event for another
    group, and an event whose group header is named in capitals. *)
Definition forOther : kafka.Message :=
  message "identity__dev" 5 "" "plain" [("GroupID", "other")].
Definition forMine : kafka.Message :=
  message "identity__dev" 6 "" "plain" [("GROUPID", "MINE")].
Definition eventForOther : kafka.Message :=
  message "identity__dev" 7 "" "other-group" [].
Definition eventForeign : kafka.Message :=
  message "identity__dev" 8 "" "foreign" [].
Definition garbage : kafka.Message :=
  message "identity__dev" 9 "" "garbage" [].

Definition returned : PState :=
  {| main := Returned;
     workers := [Finished; Finished];
     ptrace := [Handled m2 (handleMessage consumer m2 fail);
                Handled m1 (handleMessage consumer m1 fail);
                StoreMessage m1; StoreMessage m2; Resume partition0] |}.

End Fixture.

(** * Properties *)

(** ** Topic subscriptions *)

(** The entry of a pod-scoped topic is the id of the pod's topic. *)
Lemma pod_entry_is_topic_id (name pod : string) :
  name +:+ "__" +:+ pod = Topic_ID (podTopic pod name).
Proof. reflexivity. Qed.

Lemma buildTopicRegexes_length `{TopicDescriptor T} (topic : T) (pods : list Pod) :
  Scope topic = TopicScopePod ∨ Scope topic = TopicScopeOrg →
  length (buildTopicRegexes topic pods) = length pods.
Proof.
  unfold buildTopicRegexes.
  intros [-> | ->]; simpl; by rewrite length_fmap.
Qed.

(** C8, as amended.  [buildTopicRegexes] returns the bare name for a
    global topic, [<name>__<pod>] for each configured pod (in the order of
    the pods) for a pod-scoped topic, and for an org-scoped topic the
    string [^<name>__<pod>__.+] for each configured pod: a pattern anchored
    at the start that asks for a non-empty org suffix.  A scope that is
    none of the three yields nothing. *)
Theorem buildTopicRegexes_by_scope `{TopicDescriptor T} (topic : T) (pods : list Pod) :
  (Scope topic = TopicScopeGlobal → buildTopicRegexes topic pods = [Name topic])
  ∧ (Scope topic = TopicScopePod →
     buildTopicRegexes topic pods = (λ p, Name topic +:+ "__" +:+ p) <$> pods)
  ∧ (Scope topic = TopicScopeOrg →
     buildTopicRegexes topic pods
     = (λ p, "^" +:+ Name topic +:+ "__" +:+ p +:+ "__.+") <$> pods)
  ∧ (Scope topic ∉ [TopicScopeGlobal; TopicScopePod; TopicScopeOrg] →
     buildTopicRegexes topic pods = []).
Proof.
  unfold buildTopicRegexes. repeat split.
  - by intros ->.
  - by intros ->.
  - by intros ->.
  - intros Hno.
    destruct (Z.eqb_spec (Scope topic) TopicScopeGlobal) as [E|_];
      [exfalso; apply Hno; rewrite E; set_solver|].
    destruct (Z.eqb_spec (Scope topic) TopicScopePod) as [E|_];
      [exfalso; apply Hno; rewrite E; set_solver|].
    destruct (Z.eqb_spec (Scope topic) TopicScopeOrg) as [E|_];
      [exfalso; apply Hno; rewrite E; set_solver|].
    done.
Qed.

(** ** The upload threshold *)

Lemma wrap64_id (z : Z) : int_min ≤ z ≤ int_max → wrap64 z = z.
Proof.
  unfold wrap64, int_min, int_max. intros Hz.
  rewrite Z.mod_small; lia.
Qed.

(** C9.  For a configured maximum that is a Go [int] from which 100000 can
    be subtracted without wrapping around, the threshold is the maximum
    less 100000, and 0 when that is negative; [ShouldUpload] answers true
    exactly when the bucket is set, the event is not nil and the length of
    its JSON is greater than the threshold. *)
Theorem ShouldUpload_threshold `{GoLib} (config : PublisherConfig) (event : option Event) :
  int_min + 100000 ≤ PMessageMaxBytes config ≤ int_max →
  uploadThreshold (NewPublisher_uploaderConfig config)
  = Z.max 0 (PMessageMaxBytes config - 100000)
  ∧ (ShouldUpload (NewPublisher_uploaderConfig config) event = true
     ↔ PExternalBucket config ≠ ""
       ∧ ∃ e, event = Some e
              ∧ Z.max 0 (PMessageMaxBytes config - 100000) < marshalledLength e).
Proof.
  intros Hrange.
  assert (Hthr : uploadThreshold (NewPublisher_uploaderConfig config)
                 = Z.max 0 (PMessageMaxBytes config - 100000)).
  { unfold NewPublisher_uploaderConfig; simpl.
    rewrite wrap64_id by (revert Hrange; unfold int_min, int_max; lia).
    destruct (Z.ltb_spec (PMessageMaxBytes config - 100000) 0); lia. }
  split; [exact Hthr|].
  unfold ShouldUpload. rewrite Hthr. simpl.
  destruct event as [e|]; [|split; [done | by intros [_ (e & [=] & _)]]].
  case_bool_decide as Hb.
  - split; [done | intros [? _]; done].
  - rewrite Z.ltb_lt. split.
    + intros Hlt. split; [done|]. by exists e.
    + intros [_ (e' & [= <-] & Hlt)]. done.
Qed.


(** ** Headers and the two group guards *)

Section ConsumerFacts.
Context `{GoLib} {St Hd B : Type} `{!LargeEventStore St} `{!Handler Hd}.
Implicit Types (c : kafkaEventConsumer St B) (msg : kafka.Message) (handler : Hd).

(** [getHeader] finds the first header whose key folds to [key]. *)
Lemma getHeader_from_first (pre post : list kafka.Header) (h : kafka.Header) (key : string) :
  Forall (λ h', EqualFold (kafka.HKey h') key = false) pre →
  EqualFold (kafka.HKey h) key = true →
  getHeader_from (pre ++ h :: post) key = kafka.HValue h.
Proof.
  induction 1 as [|h' pre Hh' _ IH]; intros Hh; simpl.
  - by rewrite Hh.
  - rewrite Hh'. by apply IH.
Qed.

(** [getHeader] is the empty string when no key folds to [key]. *)
Lemma getHeader_from_absent (headers : list kafka.Header) (key : string) :
  Forall (λ h', EqualFold (kafka.HKey h') key = false) headers →
  getHeader_from headers key = "".
Proof. induction 1 as [|h' pre Hh' _ IH]; simpl; [done | by rewrite Hh']. Qed.

Lemma targetedElsewhere_empty (configured : string) :
  targetedElsewhere "" configured = false.
Proof. done. Qed.

Lemma targetedElsewhere_fold (groupID configured : string) :
  EqualFold groupID configured = true → targetedElsewhere groupID configured = false.
Proof. unfold targetedElsewhere. intros ->. by rewrite andb_false_r. Qed.

Lemma targetedElsewhere_true (groupID configured : string) :
  targetedElsewhere groupID configured = true
  ↔ groupID ≠ "" ∧ EqualFold groupID configured = false.
Proof.
  unfold targetedElsewhere.
  rewrite andb_true_iff, bool_decide_eq_true, negb_true_iff. done.
Qed.

(** A record that passes the first guard, on a topic that parses, whose
    event converts and passes the second guard, reaches the handler. *)
Lemma handleMessage_delivers c msg handler id topic event :
  targetedElsewhere (getHeader msg HeaderKeyGroupID) (GroupID (config c)) = false →
  kafka.Topic (kafka.MTopicPartition msg) = Some id →
  ParseTopic id = Some topic →
  toEvent c topic msg = inl event →
  targetedElsewhere (Headers_index (EHeaders event) HeaderKeyGroupID)
                    (GroupID (config c)) = false →
  handleMessage c msg handler = invokeHandler c handler topic event.
Proof.
  intros Hg1 Hid Htopic Hev Hg2. unfold handleMessage.
  by rewrite Hg1, Hid, Htopic, Hev, Hg2.
Qed.

Lemma invokeHandler_calls c handler topic event :
  ∃ rest, invokeHandler c handler topic event
          = CallHandleEvent topic event (HandleEvent handler topic event) :: rest.
Proof. unfold invokeHandler. simpl. eauto. Qed.

(** Whatever [handleMessage] does, it calls the handler at most on the
    event [toEvent] returned, and only when both guards let it through. *)
Lemma handleMessage_cases c msg handler :
  handleMessage c msg handler = []
  ∨ handleMessage c msg handler = [NilDereference]
  ∨ handleMessage c msg handler = [LogErrorf "invalid topic: %v"]
  ∨ handleMessage c msg handler = [LogErrorf "error converting message to event: %v"]
  ∨ handleMessage c msg handler = [LogWarnf "skipping event targeted at group: %s"]
  ∨ ∃ id topic event,
      kafka.Topic (kafka.MTopicPartition msg) = Some id
      ∧ ParseTopic id = Some topic
      ∧ toEvent c topic msg = inl event
      ∧ handleMessage c msg handler = invokeHandler c handler topic event.
Proof.
  unfold handleMessage.
  destruct (targetedElsewhere (getHeader msg _) _); [by left|].
  destruct (kafka.Topic _) as [id|]; [|by right; left].
  destruct (ParseTopic id) as [topic|] eqn:Htopic; [|by right; right; left].
  destruct (toEvent c topic msg) as [event|err] eqn:Hev; [|by right; right; right; left].
  destruct (targetedElsewhere (Headers_index _ _) _);
    [by right; right; right; right; left|].
  do 5 right. by exists id, topic, event.
Qed.

(** The S3 store returns the event its object parses to. *)
Lemma s3Download_returns (s : s3ExternalDownloader) (location bytes : string) (E : Event) :
  s3get s (dc_bucket s) location = inl bytes →
  jsonUnmarshalEvent bytes = Some E →
  Download s location = inl E.
Proof. intros Hget Hparse. simpl. unfold s3Download. by rewrite Hget, Hparse. Qed.

(** C6.  A message whose compact-event header reads true, whose envelope
    parses, whose content parses to the key [K], for a store whose
    [Download] returns [E] for [K]: [toEvent] returns [E].  A message whose
    compact-event header is absent, or does not read true: [toEvent]
    returns the envelope parsed from the payload (and the parse error when
    the payload does not parse). *)
Theorem toEvent_resolves c topic msg :
  (∀ raw K E,
     jsonUnmarshalEvent (kafka.Value msg) = Some raw →
     getHeaderBool msg HeaderKeyIsCompactEvent = true →
     jsonUnmarshalString (ContentJSON raw) = Some K →
     Download (largeEventStore c) K = inl E →
     toEvent c topic msg = inl E)
  ∧ (getHeader msg HeaderKeyIsCompactEvent = "" →
     getHeaderBool msg HeaderKeyIsCompactEvent = false)
  ∧ (getHeaderBool msg HeaderKeyIsCompactEvent = false →
     toEvent c topic msg
     = match jsonUnmarshalEvent (kafka.Value msg) with
       | Some raw => inl raw
       | None => inr ErrParseEvent
       end).
Proof.
  unfold toEvent. split; [|split].
  - intros raw K E -> -> HK HE. simpl. by rewrite HK, HE.
  - unfold getHeaderBool. by intros ->.
  - intros ->. by destruct (jsonUnmarshalEvent _).
Qed.

(** C7.  A record whose group header has a value that is not the empty
    string and differs from the consumer's group id (the guard compares
    with [strings.EqualFold], so differing is up to case): [handleMessage]
    does nothing at all.  A record whose event, as [toEvent] returns it
    (downloaded or not), carries such a value under the key "groupId":
    [handleMessage] does nothing, or only logs the warning; it does not call
    the handler, logs no error and does not fail. *)
Theorem handleMessage_skips_other_groups c msg handler :
  (getHeader msg HeaderKeyGroupID ≠ "" →
   EqualFold (getHeader msg HeaderKeyGroupID) (GroupID (config c)) = false →
   handleMessage c msg handler = [])
  ∧ (∀ id topic event groupID,
       kafka.Topic (kafka.MTopicPartition msg) = Some id →
       ParseTopic id = Some topic →
       toEvent c topic msg = inl event →
       EHeaders event !! HeaderKeyGroupID = Some groupID →
       groupID ≠ "" →
       EqualFold groupID (GroupID (config c)) = false →
       (handleMessage c msg handler = []
        ∨ handleMessage c msg handler = [LogWarnf "skipping event targeted at group: %s"])
       ∧ handlerInvoked (handleMessage c msg handler) = false).
Proof.
  split.
  - intros Hne Hfold. unfold handleMessage.
    by rewrite (proj2 (targetedElsewhere_true _ _) (conj Hne Hfold)).
  - intros id topic event groupID Hid Htopic Hev Hg Hne Hfold.
    assert (targetedElsewhere (Headers_index (EHeaders event) HeaderKeyGroupID)
                              (GroupID (config c)) = true) as Hskip.
    { apply targetedElsewhere_true. unfold Headers_index. by rewrite Hg. }
    unfold handleMessage. rewrite Hid, Htopic, Hev, Hskip.
    destruct (targetedElsewhere (getHeader msg _) _); split; auto.
Qed.

(** C10, as amended.  The name of a Kafka header is matched under case
    folding: [getHeader] returns the value of the first header whose key
    folds to the key asked for, and the empty string when there is none.
    The second guard reads the event's header map at the exact key
    "groupId".  At both guards a value that is empty, or that folds to the
    consumer's group id, lets the record through: when the topic parses and
    the event converts, such a record is handed to the handler. *)
Theorem group_guards_fold_case c msg handler :
  (∀ pre h post key,
     kafka.Headers msg = pre ++ h :: post →
     Forall (λ h', EqualFold (kafka.HKey h') key = false) pre →
     EqualFold (kafka.HKey h) key = true →
     getHeader msg key = kafka.HValue h)
  ∧ (∀ key,
       Forall (λ h', EqualFold (kafka.HKey h') key = false) (kafka.Headers msg) →
       getHeader msg key = "")
  ∧ (∀ id topic event,
       kafka.Topic (kafka.MTopicPartition msg) = Some id →
       ParseTopic id = Some topic →
       toEvent c topic msg = inl event →
       getHeader msg HeaderKeyGroupID = ""
       ∨ EqualFold (getHeader msg HeaderKeyGroupID) (GroupID (config c)) = true →
       default "" (EHeaders event !! "groupId") = ""
       ∨ EqualFold (default "" (EHeaders event !! "groupId")) (GroupID (config c)) = true →
       handleMessage c msg handler = invokeHandler c handler topic event
       ∧ handlerInvoked (handleMessage c msg handler) = true).
Proof.
  split; [|split].
  - intros pre h post key Hhs Hpre Hh. unfold getHeader. rewrite Hhs.
    by apply getHeader_from_first.
  - intros key Hall. by apply getHeader_from_absent.
  - intros id topic event Hid Htopic Hev Hg1 Hg2.
    assert (handleMessage c msg handler = invokeHandler c handler topic event) as ->.
    { apply (handleMessage_delivers c msg handler id); try done.
      - destruct Hg1 as [-> | Hf]; [done | by apply targetedElsewhere_fold].
      - unfold Headers_index, HeaderKeyGroupID.
        destruct Hg2 as [-> | Hf]; [done | by apply targetedElsewhere_fold]. }
    split; [done|].
    by destruct (invokeHandler_calls c handler topic event) as [rest ->].
Qed.

End ConsumerFacts.

(** ** Key runs and the partition barrier *)

Section Held.
Context {K A : Type} `{Countable K}.
Implicit Types (m : gmap K (list A)).

Lemma held_empty : held (∅ : gmap K (list A)) = [].
Proof. unfold held. by rewrite map_to_list_empty. Qed.

Lemma held_insert_fresh m key run :
  m !! key = None → held (<[key := run]> m) ≡ₚ run ++ held m.
Proof.
  intros Hnone. unfold held.
  by rewrite (map_to_list_insert m key run Hnone).
Qed.

Lemma held_delete m key run :
  m !! key = Some run → run ++ held (delete key m) ≡ₚ held m.
Proof.
  intros Hsome. unfold held.
  by rewrite <- (map_to_list_delete m key run Hsome).
Qed.

Lemma held_appendAt m key x : held (appendAt m key x) ≡ₚ x :: held m.
Proof.
  unfold appendAt.
  destruct (m !! key) as [run|] eqn:Hrun; simpl.
  - rewrite <- insert_delete_eq.
    rewrite held_insert_fresh by apply lookup_delete_eq.
    rewrite <- (held_delete m _ run Hrun).
    by rewrite (comm (++) run [x]).
  - by rewrite held_insert_fresh.
Qed.

End Held.

Lemma held_appendRun (byKey : gmap string (list kafka.Message)) msg :
  held (appendRun byKey msg) ≡ₚ msg :: held byKey.
Proof. apply held_appendAt. Qed.

Lemma inflight_finished (ws : list Worker) :
  Forall (λ w, w = Finished) ws → inflight ws = [].
Proof. unfold inflight. induction 1 as [|w ws -> _ IH]; [done | by simpl]. Qed.

Lemma inflight_insert (ws : list Worker) i w w' :
  ws !! i = Some w →
  runOf w ++ inflight (<[i := w']> ws) ≡ₚ runOf w' ++ inflight ws.
Proof.
  unfold inflight. revert i. induction ws as [|w0 ws IH]; intros [|i] Hi; try done.
  - simpl in Hi. injection Hi as ->. simpl.
    rewrite !(assoc_L (++)). by rewrite (comm (++) (runOf w)).
  - simpl in *. specialize (IH i Hi).
    rewrite !(assoc_L (++)).
    rewrite (comm (++) (runOf w)), (comm (++) (runOf w')).
    rewrite <- !(assoc_L (++)). by rewrite IH.
Qed.

Lemma finished_insert (ws : list Worker) i w :
  Forall (λ w, w = Finished) ws → ws !! i = Some w → w = Finished.
Proof. intros Hall Hi. by apply (Forall_lookup_1 _ _ _ _ Hall Hi). Qed.

Lemma snoc_eq_split {A} (l pre post : list A) (x y : A) :
  l ++ [x] = pre ++ y :: post →
  (post = [] ∧ l = pre ∧ x = y) ∨ (∃ post', post = post' ++ [x] ∧ l = pre ++ y :: post').
Proof.
  destruct post as [|z post _] using rev_ind; intros Heq.
  - left. apply app_inj_tail in Heq as [-> ->]. done.
  - right. exists post.
    rewrite app_comm_cons, (assoc_L (++)) in Heq.
    apply app_inj_tail in Heq as [-> ->]. done.
Qed.

Lemma handled_snoc (tr : list PEvent) e : handled (tr ++ [e]) = handled tr ++ handled [e].
Proof. unfold handled. by rewrite omap_app. Qed.

Lemma stored_snoc (tr : list PEvent) e : stored (tr ++ [e]) = stored tr ++ stored [e].
Proof. unfold stored. by rewrite omap_app. Qed.

Lemma stored_split (pre post : list PEvent) m :
  stored (pre ++ StoreMessage m :: post) = stored pre ++ m :: stored post.
Proof. unfold stored. by rewrite omap_app. Qed.

Lemma inflight_lookup_insert (ws : list Worker) i w w' :
  ws !! i = Some w →
  ∃ others, inflight ws ≡ₚ runOf w ++ others
            ∧ inflight (<[i := w']> ws) ≡ₚ runOf w' ++ others.
Proof.
  unfold inflight. revert i. induction ws as [|w0 ws IH]; intros [|i] Hi; try done.
  - simpl in Hi. injection Hi as ->. by exists (ws ≫= runOf).
  - simpl in Hi. destruct (IH i Hi) as (others & H1 & H2).
    exists (runOf w0 ++ others). simpl. rewrite H1, H2.
    rewrite !(assoc_L (++)).
    by rewrite (comm (++) (runOf w0) (runOf w)), (comm (++) (runOf w0) (runOf w')).
Qed.

Lemma inflight_replicate_receiving (n : nat) : inflight (replicate n Receiving) = [].
Proof. unfold inflight. induction n as [|n IH]; [done | by simpl]. Qed.

Lemma storesAfterBatch_no_store (msgs : list kafka.Message) (tr : list PEvent) :
  stored tr = [] → storesAfterBatch msgs tr.
Proof.
  intros Hnone pre m post ->. rewrite stored_split in Hnone.
  by destruct (stored pre).
Qed.

Lemma storesAfterBatch_snoc_store (msgs : list kafka.Message) tr msg rest :
  storesAfterBatch msgs tr →
  handled tr ≡ₚ msgs →
  stored tr ++ msg :: rest = msgs →
  storesAfterBatch msgs (tr ++ [StoreMessage msg]).
Proof.
  intros Htr Hh Hs pre m post Heq.
  apply snoc_eq_split in Heq as [(-> & -> & [= <-]) | (post' & -> & ->)].
  - split; [done|]. exists rest. by rewrite <- (assoc_L (++)).
  - by apply (Htr pre m post').
Qed.

Lemma storesAfterBatch_snoc_resume (msgs : list kafka.Message) tr tp :
  storesAfterBatch msgs tr → storesAfterBatch msgs (tr ++ [Resume tp]).
Proof.
  intros Htr pre m post Heq.
  apply snoc_eq_split in Heq as [(-> & -> & [=]) | (post' & -> & ->)].
  by apply (Htr pre m post').
Qed.

Section ProcessPartitionFacts.
Context `{GoLib} {St Hd B : Type} `{!LargeEventStore St} `{!Handler Hd}.
Variables (c : kafkaEventConsumer St B) (tp : kafka.TopicPartition)
          (msgs : list kafka.Message) (handler : Hd).

Lemma processPartition_inv_init :
  processPartition_inv msgs (processPartition_init c msgs).
Proof.
  split; [by apply storesAfterBatch_no_store|]. simpl. split; [done|].
  by rewrite inflight_replicate_receiving, held_empty.
Qed.

Lemma processPartition_inv_step (s s' : PState) :
  processPartition_step c tp msgs handler s s' →
  processPartition_inv msgs s → processPartition_inv msgs s'.
Proof.
  intros Hstep [Hstores Hinv]. unfold processPartition_inv.
  destruct Hstep as
    [ msg rest byKey ws i tr Hkey Hi
    | msg rest byKey ws tr Hkey
    | byKey ws tr
    | todo key run ws i tr Hrun Hi
    | ws tr
    | m ws i msg rest tr Hi
    | m ws i tr Hi
    | ws i tr Hi
    | ws tr Hall
    | msg rest ws tr
    | ws tr ]; simpl in *.
  - (* a keyless message goes to a worker *)
    destruct Hinv as [Hs Hp]. split; [done|]. split; [done|]. simpl.
    destruct (inflight_lookup_insert ws i _ (Handling [msg]) Hi) as (others & H1 & H2).
    rewrite <- Hp, H1, H2. simpl.
    apply Permutation_app_head. by rewrite <- !Permutation_middle.
  - (* a keyed message joins its run *)
    destruct Hinv as [Hs Hp]. split; [done|]. split; [done|]. simpl.
    rewrite <- Hp, held_appendRun. simpl.
    do 2 apply Permutation_app_head. by rewrite <- !Permutation_middle.
  - destruct Hinv as [Hs Hp]. split; [done|]. split; [done|]. simpl.
    by rewrite app_nil_r in Hp.
  - (* a keyed run goes to a worker *)
    destruct Hinv as [Hs Hp]. split; [done|]. split; [done|]. simpl.
    destruct (inflight_lookup_insert ws i _ (Handling run) Hi) as (others & H1 & H2).
    rewrite <- Hp, H1, H2, <- (held_delete todo key run Hrun). simpl.
    apply Permutation_app_head.
    by rewrite (comm (++) run others), <- (assoc_L (++)).
  - destruct Hinv as [Hs Hp]. split; [done|]. split; [done|]. simpl.
    by rewrite held_empty in Hp.
  - (* a worker handles the next message of its run *)
    assert (match m with Storing _ | Returned => False | _ => True end) as Hm.
    { destruct m; try done;
        destruct Hinv as [Hfin _]; by pose proof (finished_insert ws i _ Hfin Hi). }
    assert (stored tr = [] ∧ handled tr ++ inflight ws ++ pending m ≡ₚ msgs)
      as [Hs Hp] by (by destruct m).
    assert (stored (tr ++ [Handled msg (handleMessage c msg handler)]) = []) as Hs'.
    { by rewrite stored_snoc, Hs. }
    split; [by apply storesAfterBatch_no_store|].
    destruct (inflight_lookup_insert ws i _ (Handling rest) Hi) as (others & H1 & H2).
    assert (handled (tr ++ [Handled msg (handleMessage c msg handler)])
              ++ inflight (<[i:=Handling rest]> ws) ++ pending m ≡ₚ msgs) as Hp'.
    { rewrite handled_snoc, <- Hp, H1, H2. simpl.
      rewrite <- !(assoc_L (++)). apply Permutation_app_head. simpl.
      done. }
    destruct m; simpl; done.
  - (* a worker is done with its run *)
    assert (match m with Storing _ | Returned => False | _ => True end) as Hm.
    { destruct m; try done;
        destruct Hinv as [Hfin _]; by pose proof (finished_insert ws i _ Hfin Hi). }
    assert (stored tr = [] ∧ handled tr ++ inflight ws ++ pending m ≡ₚ msgs)
      as [Hs Hp] by (by destruct m).
    split; [done|].
    destruct (inflight_lookup_insert ws i _ Receiving Hi) as (others & H1 & H2).
    assert (handled tr ++ inflight (<[i:=Receiving]> ws) ++ pending m ≡ₚ msgs) as Hp'.
    { by rewrite <- Hp, H1, H2. }
    destruct m; simpl; done.
  - destruct Hinv as [Hs Hp]. split; [done|]. split; [done|].
    destruct (inflight_lookup_insert ws i _ Finished Hi) as (others & H1 & H2).
    by rewrite <- Hp, H1, H2.
  - (* the barrier *)
    destruct Hinv as [Hs Hp]. split; [done|].
    rewrite (inflight_finished ws Hall) in Hp. simpl in Hp.
    rewrite app_nil_r in Hp. by rewrite Hs.
  - (* one offset is stored *)
    destruct Hinv as (Hfin & Hh & Hs).
    split; [by eapply storesAfterBatch_snoc_store|].
    split; [done|]. rewrite handled_snoc, stored_snoc. simpl.
    rewrite app_nil_r. split; [done|]. by rewrite <- (assoc_L (++)).
  - destruct Hinv as (Hfin & Hh & Hs).
    split; [by apply storesAfterBatch_snoc_resume|].
    split; [done|]. rewrite handled_snoc, stored_snoc. simpl.
    rewrite !app_nil_r in *. done.
Qed.

Lemma processPartition_inv_reach (s : PState) :
  processPartition_reach c tp msgs handler s → processPartition_inv msgs s.
Proof.
  unfold processPartition_reach. revert s. apply rtc_ind_r.
  - apply processPartition_inv_init.
  - intros s1 s2 _ Hstep IH. by apply (processPartition_inv_step s1 s2).
Qed.

End ProcessPartitionFacts.

(** *** [processPartition] returns

    One execution that reaches the end: a single worker takes every run and
    handles it before the next run is written. *)

Section ProcessPartitionReturns.
Context `{GoLib} {St Hd B : Type} `{!LargeEventStore St} `{!Handler Hd}.
Variables (c : kafkaEventConsumer St B) (tp : kafka.TopicPartition)
          (msgs : list kafka.Message) (handler : Hd).

Local Abbreviation step := (processPartition_step c tp msgs handler).
Local Abbreviation handledBy run := ((λ m, Handled m (handleMessage c m handler)) <$> run).

Lemma workers_drain (m : Main) (ws : list Worker) i run tr :
  ws !! i = Some (Handling run) →
  rtc step {| main := m; workers := ws; ptrace := tr |}
           {| main := m; workers := <[i := Receiving]> ws;
              ptrace := tr ++ handledBy run |}.
Proof.
  revert ws tr. induction run as [|msg run IH]; intros ws tr Hi.
  - simpl. rewrite app_nil_r. apply rtc_once. by apply step_next.
  - eapply rtc_l; [by apply step_handle|].
    replace (tr ++ handledBy (msg :: run))
      with ((tr ++ [Handled msg (handleMessage c msg handler)]) ++ handledBy run)
      by (by rewrite <- (assoc_L (++))).
    replace (<[i := Receiving]> ws)
      with (<[i := Receiving]> (<[i := Handling run]> ws))
      by (by rewrite list_insert_insert_eq).
    apply IH. apply list_lookup_insert_eq. by eapply lookup_lt_Some.
Qed.

(** A worker that is waiting takes [run], handles it and waits again. *)
Lemma worker_takes_run (n : nat) (tr : list PEvent) (run : list kafka.Message)
    (m m' : Main) :
  (0 < n)%nat →
  (∀ ws i tr, ws !! i = Some Receiving →
     step {| main := m; workers := ws; ptrace := tr |}
          {| main := m'; workers := <[i := Handling run]> ws; ptrace := tr |}) →
  rtc step {| main := m; workers := replicate n Receiving; ptrace := tr |}
           {| main := m'; workers := replicate n Receiving;
              ptrace := tr ++ handledBy run |}.
Proof.
  intros Hn Hsend.
  assert (replicate n Receiving !! 0%nat = Some Receiving) as H0.
  { apply lookup_replicate_2. lia. }
  eapply rtc_l; [by apply (Hsend _ 0%nat)|].
  replace (replicate n Receiving)
    with (<[0%nat := Receiving]> (<[0%nat := Handling run]> (replicate n Receiving)))
    at 2 by (rewrite list_insert_insert_eq; by apply list_insert_id).
  apply workers_drain. apply list_lookup_insert_eq. rewrite length_replicate. lia.
Qed.

Lemma writing_completes (n : nat) (rest : list kafka.Message) byKey tr :
  (0 < n)%nat →
  ∃ byKey' tr',
    rtc step {| main := Writing rest byKey; workers := replicate n Receiving; ptrace := tr |}
             {| main := Ranging byKey'; workers := replicate n Receiving; ptrace := tr' |}.
Proof.
  intros Hn. revert byKey tr. induction rest as [|msg rest IH]; intros byKey tr.
  - exists byKey, tr. apply rtc_once. apply step_range.
  - destruct (decide (kafka.Key msg = "")) as [Hkey|Hkey].
    + destruct (IH byKey (tr ++ handledBy [msg])) as (byKey' & tr' & Hrun).
      exists byKey', tr'. etrans; [|exact Hrun].
      apply worker_takes_run; [done|]. intros ws i tr0 Hi. by apply step_send_single.
    + destruct (IH (appendRun byKey msg) tr) as (byKey' & tr' & Hrun).
      exists byKey', tr'. eapply rtc_l; [|exact Hrun]. by apply step_group.
Qed.

Lemma ranging_completes (n : nat) (todo : gmap string (list kafka.Message)) tr :
  (0 < n)%nat →
  ∃ tr',
    rtc step {| main := Ranging todo; workers := replicate n Receiving; ptrace := tr |}
             {| main := Waiting; workers := replicate n Receiving; ptrace := tr' |}.
Proof.
  intros Hn. revert tr.
  induction todo as [|key run todo Hfresh IH] using map_ind; intros tr.
  - exists tr. apply rtc_once. apply step_close.
  - destruct (IH (tr ++ handledBy run)) as (tr' & Hrun).
    exists tr'. etrans; [|exact Hrun].
    apply worker_takes_run; [done|]. intros ws i tr0 Hi.
    rewrite <- (delete_insert_id todo key run Hfresh) at 2.
    apply step_send_run; [apply lookup_insert_eq | done].
Qed.

Lemma workers_exit (k j : nat) tr :
  rtc step {| main := Waiting;
              workers := replicate k Finished ++ replicate j Receiving; ptrace := tr |}
           {| main := Waiting; workers := replicate (k + j) Finished; ptrace := tr |}.
Proof.
  revert k. induction j as [|j IH]; intros k.
  - simpl. rewrite app_nil_r, Nat.add_0_r. apply rtc_refl.
  - eapply rtc_l.
    + apply (step_exit c tp msgs handler _ k).
      rewrite lookup_app_r by (by rewrite length_replicate).
      by rewrite length_replicate, Nat.sub_diag.
    + replace (<[k:=Finished]> (replicate k Finished ++ replicate (Datatypes.S j) Receiving))
        with (replicate (Datatypes.S k) Finished ++ replicate j Receiving).
      { replace (k + Datatypes.S j)%nat with (Datatypes.S k + j)%nat by lia. apply IH. }
      rewrite insert_app_r_alt by (by rewrite length_replicate).
      rewrite length_replicate, Nat.sub_diag. simpl.
      rewrite app_comm_cons, replicate_cons_app. by rewrite <- (assoc_L (++)).
Qed.

Lemma storing_completes (ws : list Worker) (rest : list kafka.Message) tr :
  rtc step {| main := Storing rest; workers := ws; ptrace := tr |}
           {| main := Returned; workers := ws;
              ptrace := tr ++ (StoreMessage <$> rest) ++ [Resume tp] |}.
Proof.
  revert tr. induction rest as [|msg rest IH]; intros tr.
  - apply rtc_once. apply step_resume.
  - eapply rtc_l; [apply step_store|].
    replace (tr ++ (StoreMessage <$> msg :: rest) ++ [Resume tp])
      with ((tr ++ [StoreMessage msg]) ++ (StoreMessage <$> rest) ++ [Resume tp])
      by (by rewrite <- (assoc_L (++))).
    apply IH.
Qed.

Lemma workerCount_pos : msgs ≠ [] → (0 < Z.to_nat (workerCount (config c) msgs))%nat.
Proof.
  intros Hne. unfold workerCount.
  destruct (Z.ltb_spec (MaxPartitionConcurrency (config c)) 1); [|lia].
  destruct msgs; [done | simpl; lia].
Qed.

Lemma processPartition_workers_reach (s : PState) :
  processPartition_reach c tp msgs handler s →
  processPartition_workers msgs (Z.to_nat (workerCount (config c) msgs)) s.
Proof.
  unfold processPartition_reach. revert s. apply rtc_ind_r.
  - split; simpl; [by rewrite length_replicate|]. split; [|done].
    apply Forall_replicate. done.
  - intros s1 s2 _ Hstep [Hlen Hws]. unfold processPartition_workers.
    destruct Hstep as
      [ msg rest byKey ws i tr Hkey Hi
      | msg rest byKey ws tr Hkey
      | byKey ws tr
      | todo key run ws i tr Hrun Hi
      | ws tr
      | m ws i msg rest tr Hi
      | m ws i tr Hi
      | ws i tr Hi
      | ws tr Hall
      | msg rest ws tr
      | ws tr ]; simpl in *; rewrite ?length_insert; (split; [done|]).
    + destruct Hws as [Hall Hnil]. split; [by apply Forall_insert|].
      intros Hmsgs. by destruct (Hnil Hmsgs).
    + destruct Hws as [Hall Hnil]. split; [done|].
      intros Hmsgs. by destruct (Hnil Hmsgs).
    + destruct Hws as [Hall Hnil]. split; [done|].
      intros Hmsgs. by destruct (Hnil Hmsgs).
    + destruct Hws as [Hall Hnil]. split; [by apply Forall_insert|].
      intros Hmsgs. rewrite (Hnil Hmsgs) in Hrun. by rewrite lookup_empty in Hrun.
    + done.
    + destruct m; try done.
      * destruct Hws as [Hall Hnil]. split; [by apply Forall_insert | done].
      * destruct Hws as [Hall Hnil]. split; [by apply Forall_insert | done].
      * by pose proof (finished_insert ws i _ Hws Hi).
      * by pose proof (finished_insert ws i _ Hws Hi).
    + destruct m; try done.
      * destruct Hws as [Hall Hnil]. split; [by apply Forall_insert | done].
      * destruct Hws as [Hall Hnil]. split; [by apply Forall_insert | done].
      * by pose proof (finished_insert ws i _ Hws Hi).
      * by pose proof (finished_insert ws i _ Hws Hi).
    + done.
    + done.
    + done.
    + done.
Qed.

(** Every worker that holds a run can handle it to its end. *)
Lemma workers_settle (m : Main) (pre ws : list Worker) tr :
  ∃ tr', rtc step {| main := m; workers := pre ++ ws; ptrace := tr |}
                  {| main := m; workers := pre ++ (settle <$> ws); ptrace := tr' |}.
Proof.
  revert pre tr. induction ws as [|w ws IH]; intros pre tr.
  - exists tr. apply rtc_refl.
  - destruct (IH (pre ++ [settle w])
                 (tr ++ handledBy (runOf w))) as (tr' & Hrest).
    exists tr'. rewrite fmap_cons, (cons_middle (settle w) pre).
    rewrite (assoc_L (++)). etrans; [|exact Hrest].
    destruct w as [|run|]; simpl; rewrite ?app_nil_r, <- ?(assoc_L (++)); simpl;
      try apply rtc_refl.
    replace (pre ++ Receiving :: ws)
      with (<[length pre := Receiving]> (pre ++ Handling run :: ws)).
    + apply workers_drain. by apply list_lookup_middle.
    + rewrite insert_app_r_alt by done. by rewrite Nat.sub_diag.
Qed.

(** Once the channel is closed every waiting worker can leave. *)
Lemma workers_leave (pre ws : list Worker) tr :
  Forall (λ w, w = Receiving ∨ w = Finished) ws →
  rtc step {| main := Waiting; workers := pre ++ ws; ptrace := tr |}
           {| main := Waiting; workers := pre ++ replicate (length ws) Finished;
              ptrace := tr |}.
Proof.
  intros Hws. revert pre. induction Hws as [|w ws Hw _ IH]; intros pre.
  - apply rtc_refl.
  - simpl. rewrite (cons_middle Finished pre), (assoc_L (++)).
    etrans; [|apply IH]. rewrite <- (assoc_L (++)). simpl.
    destruct Hw as [-> | ->]; [|apply rtc_refl].
    apply rtc_once.
    replace (pre ++ Finished :: ws)
      with (<[length pre := Finished]> (pre ++ Receiving :: ws)).
    + apply step_exit. by apply list_lookup_middle.
    + rewrite insert_app_r_alt by done. by rewrite Nat.sub_diag.
Qed.

Lemma waiting_completes (ws : list Worker) tr :
  ∃ s, rtc step {| main := Waiting; workers := ws; ptrace := tr |} s
       ∧ main s = Returned.
Proof.
  destruct (workers_settle Waiting [] ws tr) as (tr' & Hsettle).
  eexists {| main := Returned |}. split; [|reflexivity].
  etrans; [exact Hsettle|].
  etrans; [apply (workers_leave [])|].
  { rewrite Forall_fmap. apply Forall_true. intros w. destruct w; simpl; auto. }
  eapply rtc_l; [apply step_wait; simpl; by apply Forall_replicate|].
  apply storing_completes.
Qed.

Lemma settle_not_finished (ws : list Worker) :
  Forall (λ w, w ≠ Finished) ws → settle <$> ws = replicate (length ws) Receiving.
Proof.
  induction 1 as [|w ws Hw _ IH]; [done|].
  rewrite fmap_cons, IH. by destruct w.
Qed.

(** [processPartition] cannot get stuck: from every state it reaches it
    can run to its end. *)
Lemma processPartition_can_return (s : PState) :
  processPartition_reach c tp msgs handler s →
  ∃ s', rtc step s s' ∧ main s' = Returned.
Proof.
  intros Hreach.
  pose proof (processPartition_workers_reach s Hreach) as [Hlen Hws].
  destruct s as [m ws tr]; simpl in *.
  assert (∀ tr0, 
            (match m with Writing _ _ | Ranging _ => True | _ => False end) →
            Forall (λ w, w ≠ Finished) ws →
            (msgs = [] → m = Writing [] ∅ ∨ m = Ranging ∅) →
            ∃ tr', rtc step {| main := m; workers := ws; ptrace := tr0 |}
                            {| main := Waiting; workers := replicate (length ws) Receiving;
                               ptrace := tr' |}) as Hwrite.
  { intros tr0 Hm Hall Hnil.
    destruct (workers_settle m [] ws tr0) as (tr1 & Hsettle). simpl in Hsettle.
    rewrite (settle_not_finished ws Hall) in Hsettle.
    destruct (decide (msgs = [])) as [Hmsgs|Hmsgs].
    - exists tr1. etrans; [exact Hsettle|].
      destruct (Hnil Hmsgs) as [-> | ->].
      + eapply rtc_l; [apply step_range|]. apply rtc_once, step_close.
      + apply rtc_once, step_close.
    - pose proof (workerCount_pos Hmsgs) as Hn. rewrite <- Hlen in Hn.
      destruct m as [rest byKey|todo| | |]; try done.
      + destruct (writing_completes (length ws) rest byKey tr1 Hn) as (byKey' & tr2 & H2).
        destruct (ranging_completes (length ws) byKey' tr2 Hn) as (tr3 & H3).
        exists tr3. etrans; [exact Hsettle|]. by etrans.
      + destruct (ranging_completes (length ws) todo tr1 Hn) as (tr3 & H3).
        exists tr3. by etrans. }
  destruct m as [rest byKey|todo| |rest|].
  - destruct Hws as [Hall Hnil].
    destruct (Hwrite tr I Hall) as (tr' & H1).
    { intros Hmsgs. left. by destruct (Hnil Hmsgs) as [-> ->]. }
    destruct (waiting_completes (replicate (length ws) Receiving) tr') as (s' & H2 & Hret).
    exists s'. split; [by etrans | done].
  - destruct Hws as [Hall Hnil].
    destruct (Hwrite tr I Hall) as (tr' & H1).
    { intros Hmsgs. right. by rewrite (Hnil Hmsgs). }
    destruct (waiting_completes (replicate (length ws) Receiving) tr') as (s' & H2 & Hret).
    exists s'. split; [by etrans | done].
  - apply waiting_completes.
  - eexists {| main := Returned |}. split; [apply storing_completes | done].
  - eexists. split; [apply rtc_refl | done].
Qed.

(** [processPartition] can always run to its end. *)
Lemma processPartition_returns :
  ∃ s, processPartition_reach c tp msgs handler s ∧ main s = Returned.
Proof.
  unfold processPartition_reach, processPartition_init.
  set (n := Z.to_nat (workerCount (config c) msgs)).
  assert (∃ tr, rtc step {| main := Writing msgs ∅; workers := replicate n Receiving;
                            ptrace := [] |}
                         {| main := Waiting; workers := replicate n Receiving;
                            ptrace := tr |}) as [tr Hwait].
  { destruct (decide (msgs = [])) as [Hnil|Hne].
    - exists []. rewrite Hnil at 2.
      eapply rtc_l; [apply step_range|]. apply rtc_once. apply step_close.
    - pose proof (workerCount_pos Hne) as Hn.
      destruct (writing_completes n msgs ∅ [] Hn) as (byKey & tr1 & H1).
      destruct (ranging_completes n byKey tr1 Hn) as (tr2 & H2).
      exists tr2. by etrans. }
  exists {| main := Returned; workers := replicate (0 + n) Finished;
            ptrace := tr ++ (StoreMessage <$> msgs) ++ [Resume tp] |}.
  split; [|reflexivity].
  etrans; [exact Hwait|].
  etrans; [apply (workers_exit 0 n)|]. simpl.
  eapply rtc_l; [apply step_wait; by apply Forall_replicate|].
  apply storing_completes.
Qed.

End ProcessPartitionReturns.

(** *** The runs [writePartitionedMessages] writes *)

Lemma groupByKey_singles (msgs : list kafka.Message) byKey :
  (groupByKey msgs byKey).1 = (λ m, [m]) <$> runFor "" msgs.
Proof.
  unfold runFor. revert byKey. induction msgs as [|msg rest IH]; intros byKey; [done|].
  simpl. case_bool_decide as Hkey.
  - rewrite filter_cons_True by done.
    specialize (IH byKey). destruct (groupByKey rest byKey) as [singles m].
    simpl in *. by rewrite IH.
  - rewrite filter_cons_False by done. apply IH.
Qed.

Lemma groupByKey_lookup (msgs : list kafka.Message) byKey (key : string) :
  (groupByKey msgs byKey).2 !! key
  = if decide (key = "") then byKey !! key
    else match runFor key msgs with
         | [] => byKey !! key
         | run => Some (default [] (byKey !! key) ++ run)
         end.
Proof.
  unfold runFor. revert byKey. induction msgs as [|msg rest IH]; intros byKey.
  - simpl. by case_decide.
  - simpl. case_bool_decide as Hkey.
    + specialize (IH byKey). destruct (groupByKey rest byKey) as [singles m].
      simpl in *. rewrite IH. case_decide as Hk; [done|].
      rewrite filter_cons_False by congruence. done.
    + rewrite IH. unfold appendRun, appendAt. case_decide as Hk.
      { subst key. by rewrite lookup_insert_ne. }
      destruct (decide (kafka.Key msg = key)) as [Heq|Hne].
      * rewrite filter_cons_True by done. subst key.
        rewrite lookup_insert_eq. simpl.
        destruct (filter _ rest); [done|]. by rewrite <- (assoc_L (++)).
      * rewrite filter_cons_False by done. by rewrite lookup_insert_ne.
Qed.

Lemma groupByKey_partition (msgs : list kafka.Message) byKey :
  mjoin (groupByKey msgs byKey).1 ++ held (groupByKey msgs byKey).2
  ≡ₚ held byKey ++ msgs.
Proof.
  revert byKey. induction msgs as [|msg rest IH]; intros byKey.
  - simpl. by rewrite app_nil_r.
  - simpl. case_bool_decide as Hkey.
    + specialize (IH byKey). destruct (groupByKey rest byKey) as [singles m].
      simpl in *. rewrite IH. by rewrite <- Permutation_middle.
    + rewrite IH, held_appendRun. simpl. by rewrite <- Permutation_middle.
Qed.

Lemma runFor_nonempty (msgs : list kafka.Message) (key : string) :
  runFor key msgs ≠ [] ↔ key ∈ kafka.Key <$> msgs.
Proof.
  unfold runFor. rewrite list_elem_of_fmap. split.
  - intros Hne. destruct (filter _ msgs) as [|m run] eqn:Hf; [done|].
    assert (m ∈ filter (λ m, kafka.Key m = key) msgs) as Hin
        by (rewrite Hf; left).
    apply list_elem_of_filter in Hin as [Hk Hin]. by exists m.
  - intros (m & -> & Hin) Hnil.
    assert (m ∈ filter (λ m', kafka.Key m' = kafka.Key m) msgs) as Hin'
        by (by apply list_elem_of_filter).
    rewrite Hnil in Hin'. by apply elem_of_nil in Hin'.
Qed.

Lemma groupByKey_dom (msgs : list kafka.Message) :
  dom (groupByKey msgs ∅).2 = keysOf msgs.
Proof.
  apply set_eq. intros key. unfold keysOf.
  rewrite elem_of_dom, groupByKey_lookup, elem_of_list_to_set, list_elem_of_filter.
  rewrite <- runFor_nonempty, lookup_empty.
  case_decide as Hk.
  - split; [by intros [? ?] | by intros [? _]].
  - destruct (runFor key msgs); simpl.
    + split; [by intros [? ?] | by intros [_ ?]].
    + split; [done | by eexists].
Qed.

Lemma map_to_list_by_dom {A} (m : gmap string A) (f : string → A) :
  (∀ k v, m !! k = Some v → v = f k) →
  map_to_list m ≡ₚ (λ k, (k, f k)) <$> elements (dom m).
Proof.
  intros Hf. apply NoDup_Permutation.
  - apply NoDup_map_to_list.
  - apply NoDup_fmap_2; [by intros k1 k2 [= ->] | apply NoDup_elements].
  - intros [k v]. rewrite elem_of_map_to_list, list_elem_of_fmap. split.
    + intros Hkv. exists k. rewrite (Hf k v Hkv). split; [done|].
      apply elem_of_elements, elem_of_dom. by eexists.
    + intros (k' & [= -> ->] & Hin).
      apply elem_of_elements, elem_of_dom in Hin as [v Hv].
      by rewrite <- (Hf k' v Hv).
Qed.

(** C2.  Whatever [writePartitionedMessages] writes for [msgs]: first one
    singleton run for each message with an empty key, in the order of the
    input; then, in some order, one run for each non-empty key of the
    input, holding the messages that bear the key in the order of the
    input.  Together the runs hold every message of the input once. *)
Theorem writePartitionedMessages_partitions (msgs : list kafka.Message)
    (out : list (list kafka.Message)) :
  writePartitionedMessages msgs out →
  ∃ keyed,
    out = ((λ m, [m]) <$> runFor "" msgs) ++ keyed
    ∧ keyed ≡ₚ (λ key, runFor key msgs) <$> elements (keysOf msgs)
    ∧ mjoin out ≡ₚ msgs.
Proof.
  intros (keyed & Hkeyed & ->). exists keyed.
  rewrite groupByKey_singles. split; [done|].
  assert (map_to_list (groupByKey msgs ∅).2
          ≡ₚ (λ key, (key, runFor key msgs)) <$> elements (keysOf msgs)) as Hruns.
  { rewrite <- groupByKey_dom. apply map_to_list_by_dom.
    intros key run. rewrite groupByKey_lookup, lookup_empty.
    case_decide; [done|]. by destruct (runFor key msgs); intros [= <-]. }
  split.
  - rewrite Hkeyed, Hruns. by rewrite <- list_fmap_compose.
  - rewrite join_app, Hkeyed. fold (held (groupByKey msgs ∅).2).
    rewrite <- (groupByKey_singles msgs ∅).
    by rewrite groupByKey_partition, held_empty.
Qed.

(** Every order of the keyed runs is written by some execution. *)
Lemma writePartitionedMessages_total (msgs : list kafka.Message) :
  writePartitionedMessages msgs
    ((groupByKey msgs ∅).1 ++ (map_to_list (groupByKey msgs ∅).2).*2).
Proof. by eexists. Qed.

(** *** The barrier of [processPartition] *)

Section ProcessPartitionBarrier.
Context `{GoLib} {St Hd B : Type} `{!LargeEventStore St} `{!Handler Hd}.
Implicit Types (c : kafkaEventConsumer St B) (tp : kafka.TopicPartition)
               (msgs : list kafka.Message) (handler : Hd).

(** Every [Handled] of a trace records a call of [handleMessage]. *)
Lemma processPartition_handled_by c tp msgs handler s :
  processPartition_reach c tp msgs handler s →
  ∀ m es, Handled m es ∈ ptrace s → es = handleMessage c m handler.
Proof.
  unfold processPartition_reach. revert s.
  apply (rtc_ind_r (λ s, ∀ m es, Handled m es ∈ ptrace s → es = handleMessage c m handler)).
  - intros m es Hin. by apply elem_of_nil in Hin.
  - intros s1 s2 _ Hstep IH m es.
    destruct Hstep; simpl in *; try apply IH;
      rewrite elem_of_app, list_elem_of_singleton;
      (intros [Hin | Heq]; [by apply IH | by inversion Heq]).
Qed.

(** When [processPartition] has returned, the offsets stored are the
    batch. *)
Lemma processPartition_returned_stored c tp msgs handler s :
  processPartition_reach c tp msgs handler s →
  main s = Returned → stored (ptrace s) = msgs.
Proof.
  intros Hreach Hret.
  pose proof (processPartition_inv_reach c tp msgs handler s Hreach) as [_ Hinv].
  rewrite Hret in Hinv. by destruct Hinv as (_ & _ & ?).
Qed.

(** C1.  In every state an execution of [processPartition] reaches: when
    an offset is stored, the messages handled before it are the messages of
    the batch, each once (every record went through [handleMessage],
    whatever the handler answered), and the offsets stored up to it are a
    prefix of the batch in its polled order; every [Handled] of the trace is
    a call of [handleMessage]; and when the function has returned, the
    offsets stored are the batch, in its order. *)
Theorem processPartition_stores_after_handling c tp msgs handler s :
  processPartition_reach c tp msgs handler s →
  (∀ pre m post,
     ptrace s = pre ++ StoreMessage m :: post →
     handled pre ≡ₚ msgs ∧ stored pre ++ [m] `prefix_of` msgs)
  ∧ (∀ m es, Handled m es ∈ ptrace s → es = handleMessage c m handler)
  ∧ (main s = Returned → stored (ptrace s) = msgs).
Proof.
  intros Hreach.
  pose proof (processPartition_inv_reach c tp msgs handler s Hreach) as [Hstores _].
  split; [exact Hstores|]. split; [by eapply processPartition_handled_by|].
  by apply (processPartition_returned_stored c tp msgs handler).
Qed.

End ProcessPartitionBarrier.

(** ** Per-record errors *)

Section RecordErrors.
Context `{GoLib} {St Hd B : Type} `{!LargeEventStore St} `{!Handler Hd}.
Implicit Types (c : kafkaEventConsumer St B) (tp : kafka.TopicPartition)
               (msgs : list kafka.Message) (msg : kafka.Message) (handler : Hd).

Lemma handleMessage_conversion_error c msg handler id topic err :
  targetedElsewhere (getHeader msg HeaderKeyGroupID) (GroupID (config c)) = false →
  kafka.Topic (kafka.MTopicPartition msg) = Some id →
  ParseTopic id = Some topic →
  toEvent c topic msg = inr err →
  handleMessage c msg handler = [LogErrorf "error converting message to event: %v"].
Proof. intros Hg Hid Htopic Hev. unfold handleMessage. by rewrite Hg, Hid, Htopic, Hev. Qed.

(** On a message with a topic [handleMessage] does not fail. *)
Lemma handleMessage_no_failure c msg handler id :
  kafka.Topic (kafka.MTopicPartition msg) = Some id →
  Forall (λ e, e ≠ NilDereference) (handleMessage c msg handler).
Proof.
  intros Hid. unfold handleMessage, invokeHandler. rewrite Hid.
  destruct (targetedElsewhere _ _); [constructor|].
  destruct (ParseTopic id) as [topic|]; [|by repeat constructor].
  destruct (toEvent c topic msg) as [event|]; [|by repeat constructor].
  destruct (targetedElsewhere _ _); [by repeat constructor|].
  destruct (HandleEvent handler topic event), (isNormalizedMetricEnabled c);
    simpl; by repeat constructor.
Qed.

(** C3.  [handleMessage] has no result to return an error in, and for a
    record of a batch (its topic is not nil) it does not fail.  For a record
    the first guard lets through: a topic that does not parse, an envelope
    that does not parse, a compact event whose key does not parse or whose
    download fails, each leave one line in the error log and nothing else;
    an error of the handler is logged after the call, followed by metrics
    only.  Whatever the handler and the records, when [processPartition]
    has returned every offset of the batch is stored, and from every state
    it reaches it can go on to return. *)
Theorem handleMessage_swallows_errors c tp msgs handler :
  (∀ msg id,
     kafka.Topic (kafka.MTopicPartition msg) = Some id →
     Forall (λ e, e ≠ NilDereference) (handleMessage c msg handler)
     ∧ (targetedElsewhere (getHeader msg HeaderKeyGroupID) (GroupID (config c)) = false →
        (ParseTopic id = None →
         handleMessage c msg handler = [LogErrorf "invalid topic: %v"])
        ∧ (∀ topic,
             ParseTopic id = Some topic →
             (jsonUnmarshalEvent (kafka.Value msg) = None →
              handleMessage c msg handler
              = [LogErrorf "error converting message to event: %v"])
             ∧ (∀ raw,
                  jsonUnmarshalEvent (kafka.Value msg) = Some raw →
                  getHeaderBool msg HeaderKeyIsCompactEvent = true →
                  (jsonUnmarshalString (ContentJSON raw) = None →
                   handleMessage c msg handler
                   = [LogErrorf "error converting message to event: %v"])
                  ∧ (∀ K err,
                       jsonUnmarshalString (ContentJSON raw) = Some K →
                       Download (largeEventStore c) K = inr err →
                       handleMessage c msg handler
                       = [LogErrorf "error converting message to event: %v"]))
             ∧ (∀ event err,
                  toEvent c topic msg = inl event →
                  targetedElsewhere (Headers_index (EHeaders event) HeaderKeyGroupID)
                                    (GroupID (config c)) = false →
                  HandleEvent handler topic event = Some err →
                  ∃ metrics,
                    handleMessage c msg handler
                    = CallHandleEvent topic event (Some err)
                      :: LogErrorf "event handler failed: %v" :: metrics
                    ∧ Forall (λ e, ∃ name ls, (e = CounterInc name ls ∨ e = Observe name ls))
                             metrics))))
  ∧ (∀ s, processPartition_reach c tp msgs handler s →
          main s = Returned → stored (ptrace s) = msgs)
  ∧ (∀ s, processPartition_reach c tp msgs handler s →
          ∃ s', rtc (processPartition_step c tp msgs handler) s s'
                ∧ main s' = Returned).
Proof.
  split; [|split].
  - intros msg id Hid. split; [by apply (handleMessage_no_failure c msg handler id)|].
    intros Hg. split.
    { intros Hno. unfold handleMessage. by rewrite Hg, Hid, Hno. }
    intros topic Htopic. split; [|split].
    + intros Hraw. apply (handleMessage_conversion_error c msg handler id topic ErrParseEvent);
        try done. unfold toEvent. by rewrite Hraw.
    + intros raw Hraw Hcompact. split.
      * intros HK.
        apply (handleMessage_conversion_error c msg handler id topic
                 (ErrParseLocation (ContentJSON raw))); try done.
        unfold toEvent. by rewrite Hraw, Hcompact, HK.
      * intros K err HK HD.
        apply (handleMessage_conversion_error c msg handler id topic (ErrDownload K err));
          try done.
        unfold toEvent. by rewrite Hraw, Hcompact, HK, HD.
    + intros event err Hev Hg2 Herr.
      rewrite (handleMessage_delivers c msg handler id topic event) by done.
      unfold invokeHandler. rewrite Herr. simpl.
      destruct (isNormalizedMetricEnabled c); simpl; eexists; (split; [done|]);
        repeat constructor; eauto.
  - intros s Hreach Hret. by apply (processPartition_returned_stored c tp msgs handler).
  - apply processPartition_can_return.
Qed.

End RecordErrors.

(** ** Polling *)

Lemma emit_result {A} (es : list Effect) (r : Run A) : result (emit es r) = result r.
Proof. done. Qed.

Lemma emit_effects {A} (es : list Effect) (r : Run A) :
  effects (emit es r) = es ++ effects r.
Proof. done. Qed.

(** What [addMessage] keeps, the loop of [pollBatch] keeps. *)
Lemma pollBatch_loop_invariant (P : messageBatch → Prop) (batchSize : Z) :
  (∀ b msg b',
     messageCount b < batchSize → addMessage b msg = Some b' → P b → P b') →
  ∀ polls ctx b,
    P b →
    ∀ b' err, result (pollBatch_loop batchSize polls ctx b) = Returns (b', err) → P b'.
Proof.
  intros Hadd polls. induction polls as [|p polls IH]; intros ctx b HP b' err; simpl.
  - destruct (Z.ltb_spec (messageCount b) batchSize); [|by intros [= <- <-]].
    destruct ctx as [|[] ctx]; simpl; try done. by intros [= <- <-].
  - destruct (Z.ltb_spec (messageCount b) batchSize) as [Hlt|]; [|by intros [= <- <-]].
    destruct ctx as [|[] ctx]; simpl; try done; [by intros [= <- <-]|].
    destruct p as [ev|]; [|by intros [= <- <-]].
    destruct ev as [parts|parts|m|e|st|]; rewrite ?emit_result;
      try (by apply IH).
    + destruct (kafka.Error _); rewrite ?emit_result; [by apply IH|].
      destruct (addMessage b m) as [b1|] eqn:Hb1; rewrite emit_result.
      * apply IH. by apply (Hadd b m b1).
      * by apply IH.
    + by intros [= <- <-].
Qed.

(** A Kafka error comes back only with an empty count. *)
Lemma pollBatch_loop_kafka_error (batchSize : Z) polls ctx b b' e :
  result (pollBatch_loop batchSize polls ctx b) = Returns (b', Some (KafkaErr e)) →
  messageCount b' ≤ 0.
Proof.
  revert ctx b. induction polls as [|p polls IH]; intros ctx b; simpl.
  - destruct (Z.ltb_spec (messageCount b) batchSize); [|done].
    by destruct ctx as [|[] ctx].
  - destruct (Z.ltb_spec (messageCount b) batchSize) as [Hlt|]; [|done].
    destruct ctx as [|[] ctx]; simpl; try done.
    destruct p as [ev|]; [|done].
    destruct ev as [parts|parts|m|e'|st|]; rewrite ?emit_result; try (by apply IH).
    + destruct (kafka.Error _); rewrite ?emit_result; [by apply IH|].
      destruct (addMessage b m) as [b1|]; rewrite emit_result; by apply IH.
    + destruct (Z.ltb_spec 0 (messageCount b)); [done|]. intros [= <- _]. lia.
Qed.

(** [pollBatch] neither waits nor resets the backoff. *)
Lemma pollBatch_loop_neutral (batchSize : Z) polls ctx b :
  Forall backoffNeutral (effects (pollBatch_loop batchSize polls ctx b)).
Proof.
  revert ctx b. induction polls as [|p polls IH]; intros ctx b; simpl.
  - destruct (messageCount b <? batchSize)%Z; [|constructor].
    destruct ctx as [|[] ctx]; constructor.
  - destruct (messageCount b <? batchSize)%Z; [|constructor].
    destruct ctx as [|[] ctx]; simpl; try constructor.
    destruct p as [ev|]; [|by repeat constructor].
    destruct ev as [parts|parts|m|e'|st|]; rewrite ?emit_effects;
      try (apply Forall_app; split; [by repeat constructor | apply IH]).
    + destruct (kafka.Error _); rewrite ?emit_effects;
        [apply Forall_app; split; [by repeat constructor | apply IH]|].
      destruct (addMessage b m) as [b1|]; rewrite emit_effects;
        (apply Forall_app; split; [by repeat constructor | apply IH]).
    + by repeat constructor.
Qed.

Lemma addMessage_counted (batchSize : Z) b msg b' :
  batchSize ≤ int_max →
  messageCount b < batchSize → addMessage b msg = Some b' →
  batchCounted b → batchCounted b'.
Proof.
  intros Hmax Hlt Hadd [Hcount Htopics]. unfold addMessage, newTopicPartition in Hadd.
  destruct (kafka.Topic (kafka.MTopicPartition msg)) as [t|] eqn:Ht; [|done].
  injection Hadd as <-. unfold batchCounted. simpl.
  rewrite (held_appendAt (messages b) _ msg). simpl. split.
  - rewrite wrap64_id by (revert Hmax; unfold int_min, int_max; lia). lia.
  - constructor; [by rewrite Ht | done].
Qed.

Lemma pollBatch_counted {St B} (c : kafkaEventConsumer St B) (w : World) b err :
  batchSize c ≤ int_max →
  result (pollBatch c w) = Returns (b, err) → batchCounted b.
Proof.
  intros Hmax. unfold pollBatch.
  apply (pollBatch_loop_invariant batchCounted (batchSize c)).
  - intros b0 msg b1. by apply addMessage_counted.
  - split; [done|]. unfold held. simpl. rewrite map_to_list_empty. constructor.
Qed.

Lemma dispatch_neutral (b : messageBatch) : Forall backoffNeutral (dispatch b).
Proof.
  unfold dispatch. induction (map_to_list (messages b)) as [|[tp msgs] l IH]; [constructor|].
  simpl. by repeat constructor.
Qed.

Lemma dispatch_partition (b : messageBatch) (tp : topicPartition) msgs :
  messages b !! tp = Some msgs →
  Pause (toKafkaTopicPartition tp) ∈ dispatch b
  ∧ GoProcessPartition (toKafkaTopicPartition tp) msgs ∈ dispatch b.
Proof.
  intros Hin. apply elem_of_map_to_list in Hin. unfold dispatch.
  split; apply list_elem_of_bind; exists (tp, msgs); (split; [|done]); simpl.
  - left.
  - right. left.
Qed.

Section PollErrors.
Context {St B : Type} `{!BackOff B}.
Implicit Types (c : kafkaEventConsumer St B).

(** C5.  When [Poll] yields a Kafka error, [pollBatch] logs it and
    returns the batch it has: with a nil error when the batch holds a
    message, with the error when it holds none.  So an error comes back
    from [pollBatch] only with an empty batch; and [run], given a batch that
    holds a message and a nil error, resets the backoff and starts a
    [processPartition] for every partition of the batch, without waiting. *)
Theorem pollBatch_partial_batch c :
  (∀ polls ctx batch e,
     messageCount batch < batchSize c →
     pollBatch_loop (batchSize c) (Some (kafka.KafkaError e) :: polls) (false :: ctx) batch
     = {| result := Returns (batch, if (0 <? messageCount batch)%Z
                                    then None else Some (KafkaErr e));
          effects := [Poll (if (0 <? messageCount batch)%Z then 0 else 5000);
                      LogErrorf "kafka error: %v"];
          world := {| ctxDone := ctx; polls := polls |} |})
  ∧ (batchSize c ≤ int_max →
     ∀ w b e, result (pollBatch c w) = Returns (b, Some (KafkaErr e)) →
              messageCount b = 0 ∧ held (messages b) = [])
  ∧ (∀ b, messageCount b ≠ 0 →
          (afterPoll c (b, None)).1 = BackoffReset :: dispatch b
          ∧ Forall (λ e, isSleep e = false) (afterPoll c (b, None)).1
          ∧ ∀ tp msgs, messages b !! tp = Some msgs →
                       GoProcessPartition (toKafkaTopicPartition tp) msgs
                       ∈ (afterPoll c (b, None)).1).
Proof.
  split; [|split].
  - intros polls ctx batch e Hlt. simpl.
    by destruct (Z.ltb_spec (messageCount batch) (batchSize c)); [|lia].
  - intros Hmax w b e Hres.
    pose proof (pollBatch_counted c w b _ Hmax Hres) as [Hcount _].
    pose proof (pollBatch_loop_kafka_error _ _ _ _ _ _ Hres) as Hle.
    assert (messageCount b = 0) as H0 by lia. split; [done|].
    rewrite H0 in Hcount. by destruct (held (messages b)).
  - intros b Hne. unfold afterPoll. simpl.
    rewrite bool_decide_eq_false_2 by done. split; [done|]. split.
    + constructor; [done|].
      eapply Forall_impl; [apply dispatch_neutral|]. by intros [].
    + intros tp msgs Hin. right. by apply dispatch_partition.
Qed.

End PollErrors.

(** ** The error backoff of [run] *)

Lemma backoffDiscipline_neutral (base cap : Z) prev (es1 es2 : list Effect) :
  Forall backoffNeutral es1 →
  backoffDiscipline base cap prev es2 →
  backoffDiscipline base cap prev (es1 ++ es2).
Proof.
  induction 1 as [|e es1 He _ IH]; intros H2; [done|].
  simpl. destruct e; try done; by apply IH.
Qed.

Lemma growth_ge (cur num den : Z) : 0 ≤ cur → 0 < den ≤ num → cur ≤ cur * num / den.
Proof. intros Hcur Hden. apply Z.div_le_lower_bound; nia. Qed.

Lemma next_capped (base : Z) prev (b : ExponentialBackOff) :
  capped base b → follows prev b →
  match prev with None => (next b).1 = base | Some p => p ≤ (next b).1 end
  ∧ base ≤ (next b).1 ≤ errorBackoffCap
  ∧ capped base (next b).2
  ∧ follows (Some (next b).1) (next b).2.
Proof.
  intros (Hinit & Hmax & Hbase & Hmul & Hcur) Hprev.
  pose proof (growth_ge (currentInterval b) _ _ ltac:(lia) Hmul) as Hgrow.
  unfold next, capped, follows in *; simpl. rewrite Hmax. repeat split; try lia.
  destruct prev as [p|]; [by rewrite Hmax in Hprev | lia].
Qed.

Lemma next_stays_capped (base : Z) (b : ExponentialBackOff) :
  capped base b → capped base (next b).2.
Proof.
  intros Hcap.
  assert (follows (Some base) b) as Hprev.
  { destruct Hcap as (_ & Hmax & Hbase & _ & Hcur). unfold follows. lia. }
  by destruct (next_capped base (Some base) b Hcap Hprev) as (_ & _ & ? & _).
Qed.

Lemma reset_capped (base : Z) (b : ExponentialBackOff) :
  capped base b → capped base (reset b) ∧ follows None (reset b).
Proof.
  intros (Hinit & Hmax & Hbase & Hmul & Hcur).
  unfold reset, capped, follows; simpl. repeat split; lia.
Qed.

Lemma waits_capped (base : Z) (n : nat) prev (b : ExponentialBackOff) :
  capped base b → follows prev b →
  Sorted Z.le (waits n b)
  ∧ Forall (λ d, base ≤ d ≤ errorBackoffCap) (waits n b)
  ∧ match prev with
    | None => head (waits n b) = None ∨ head (waits n b) = Some base
    | Some p => HdRel Z.le p (waits n b)
    end.
Proof.
  revert prev b. induction n as [|n IH]; intros prev b Hcap Hprev.
  - simpl. repeat split; try constructor. destruct prev; [constructor | by left].
  - destruct (next_capped base prev b Hcap Hprev) as (Hd & Hrange & Hcap' & Hprev').
    destruct (IH _ _ Hcap' Hprev') as (Hsorted & Hall & Hhd).
    change (waits (Datatypes.S n) b) with ((next b).1 :: waits n (next b).2).
    split; [by constructor|]. split; [by constructor|].
    destruct prev; [by constructor | right; simpl; by rewrite <- Hd].
Qed.

Section RunBackoff.
Context {St : Type}.
Implicit Types (c : kafkaEventConsumer St ExponentialBackOff).

Lemma run_loop_discipline (base : Z) (fuel : nat) c (w : World) prev :
  capped base (errorBackoff c) → follows prev (errorBackoff c) →
  backoffDiscipline base errorBackoffCap prev (effects (run_loop fuel c w)).
Proof.
  revert c w prev. induction fuel as [|fuel IH]; intros c w prev Hcap Hprev; [done|].
  simpl. destruct (ctxDone w) as [|[] ctx]; try done.
  pose proof (pollBatch_loop_neutral (batchSize c) (polls w) ctx newMessageBatch) as Hpoll.
  unfold pollBatch. simpl.
  destruct (result (pollBatch_loop _ _ _ _)) as [[b err]|]; simpl.
  - unfold afterPoll. simpl. destruct err as [err|].
    + destruct (next_capped base prev _ Hcap Hprev) as (Hd & Hrange & Hcap' & Hprev').
      simpl. rewrite <- (assoc_L (++)).
      apply backoffDiscipline_neutral; [done|]. simpl.
      split; [exact Hd|]. split; [apply Hrange|].
      apply IH; [exact Hcap' | exact Hprev'].
    + destruct (reset_capped base _ Hcap) as [Hcap' Hprev'].
      simpl. rewrite <- (assoc_L (++)).
      apply backoffDiscipline_neutral; [done|]. simpl.
      apply backoffDiscipline_neutral; [|apply IH; [exact Hcap' | exact Hprev']].
      case_bool_decide; [constructor | apply dispatch_neutral].
  - rewrite <- (app_nil_r (effects _)). by apply backoffDiscipline_neutral.
Qed.

End RunBackoff.

(** C4.  For the consumer [newKafkaEventConsumer] builds on a fresh
    exponential policy whose base interval is at most the cap of 30
    seconds and whose factor is at least one: along every run of the poll
    loop a wait is never shorter than the wait before it unless the
    backoff was reset in between, no wait exceeds 30 seconds, and the first
    wait, like the first wait after a successful poll, is the base
    interval; the waits of any number of failed polls in a row are sorted
    and lie between the base interval and the cap; and [run] resets the
    policy after a successful poll, whatever the failures before it, so
    that its next wait is the base interval. *)
Theorem run_backoff_discipline `{GoLib} (cfg : ConsumerConfig) (metricsEnabled : bool)
    (s3 : string → string → string + string) (base num den defaultMax : Z) :
  0 ≤ base ≤ errorBackoffCap →
  0 < den ≤ num →
  let c := newKafkaEventConsumer cfg metricsEnabled s3
             (NewExponentialBackOff base num den defaultMax) in
  (∀ fuel w, backoffDiscipline base errorBackoffCap None (effects (run fuel c w)))
  ∧ (∀ n, Sorted Z.le (waits n (errorBackoff c))
          ∧ Forall (λ d, base ≤ d ≤ errorBackoffCap) (waits n (errorBackoff c)))
  ∧ (∀ n batch,
       let failed := Nat.iter n (λ b, (NextBackOff b).2) (errorBackoff c) in
       (NextBackOff (errorBackoff (afterPoll (withBackoff c failed) (batch, None)).2)).1
       = base).
Proof.
  intros Hbase Hmul c.
  assert (capped base (errorBackoff c)) as Hcap.
  { unfold capped; simpl. repeat split; lia. }
  assert (follows None (errorBackoff c)) as Hfresh by done.
  split; [|split].
  - intros fuel w. unfold run. rewrite emit_effects. simpl.
    by apply run_loop_discipline.
  - intros n. destruct (waits_capped base n None _ Hcap Hfresh) as (? & ? & _). done.
  - intros n batch failed.
    assert (capped base failed) as Hfailed.
    { subst failed. induction n as [|n IH]; [done|].
      rewrite Nat.iter_succ. by apply next_stays_capped. }
    unfold afterPoll. simpl.
    destruct Hfailed as (Hinit & Hmax & _). rewrite Hinit, Hmax. lia.
Qed.

(** ** The properties on the small instance *)

Section Examples.
Import Fixture.

(** The subscriptions of the descriptors "identity" in each scope, for the
    pods dev and prd. *)
Lemma buildTopicRegexes_by_scope_witness :
  buildTopicRegexes (NewSimpleTopicDescriptor TopicScopeGlobal "identity") ["dev"; "prd"]
  = ["identity"]
  ∧ buildTopicRegexes (NewSimpleTopicDescriptor TopicScopePod "identity") ["dev"; "prd"]
    = ["identity__dev"; "identity__prd"]
  ∧ buildTopicRegexes (NewSimpleTopicDescriptor TopicScopeOrg "identity") ["dev"; "prd"]
    = ["^identity__dev__.+"; "^identity__prd__.+"].
Proof.
  split; [|split].
  - exact (proj1 (buildTopicRegexes_by_scope
                    (NewSimpleTopicDescriptor TopicScopeGlobal "identity")
                    ["dev"; "prd"]) eq_refl).
  - exact (proj1 (proj2 (buildTopicRegexes_by_scope
                           (NewSimpleTopicDescriptor TopicScopePod "identity")
                           ["dev"; "prd"])) eq_refl).
  - exact (proj1 (proj2 (proj2 (buildTopicRegexes_by_scope
                                  (NewSimpleTopicDescriptor TopicScopeOrg "identity")
                                  ["dev"; "prd"]))) eq_refl).
Defined.

(** C8, as stated, fails for the org scope: the entry for the topic
    "identity" and the pod "dev" is [^identity__dev__.+], not
    [identity__dev__.*]. *)
Lemma buildTopicRegexes_org_counterexample :
  buildTopicRegexes (NewSimpleTopicDescriptor TopicScopeOrg "identity") ["dev"]
  = ["^identity__dev__.+"]
  ∧ buildTopicRegexes (NewSimpleTopicDescriptor TopicScopeOrg "identity") ["dev"]
    ≠ ["identity__dev__.*"].
Proof. split; [reflexivity | discriminate]. Qed.

(** With a maximum of 50 KB the threshold is 0, and an event of 9 bytes
    is uploaded. *)
Lemma ShouldUpload_threshold_witness :
  uploadThreshold
    (NewPublisher_uploaderConfig
       {| PBootstrapServers := "localhost:9092"; CompressionType := "gzip";
          PMessageMaxBytes := 50000; PExternalBucket := "bucket" |})
  = Z.max 0 (50000 - 100000)
  ∧ (ShouldUpload
       (NewPublisher_uploaderConfig
          {| PBootstrapServers := "localhost:9092"; CompressionType := "gzip";
             PMessageMaxBytes := 50000; PExternalBucket := "bucket" |})
       (Some Fixture.plainEvent) = true
     ↔ "bucket" ≠ ""
       ∧ ∃ e, Some Fixture.plainEvent = Some e
              ∧ Z.max 0 (50000 - 100000) < marshalledLength e).
Proof.
  apply (ShouldUpload_threshold
           {| PBootstrapServers := "localhost:9092"; CompressionType := "gzip";
              PMessageMaxBytes := 50000; PExternalBucket := "bucket" |}
           (Some Fixture.plainEvent)).
  unfold int_min, int_max; simpl; lia.
Defined.

(** An execution of [processPartition] on the batch of two records, with
    a handler that fails on both. *)
Lemma returned_reach :
  processPartition_reach consumer partition0 batch fail returned.
Proof.
  unfold processPartition_reach, processPartition_init, returned.
  change (replicate _ Receiving) with [Receiving; Receiving].
  eapply rtc_l; [by apply step_send_single with (i := 0%nat)|]. simpl.
  eapply rtc_l; [by apply step_group|].
  eapply rtc_l; [apply step_range|].
  eapply rtc_l; [by apply step_send_run with (key := "k") (run := [m2]) (i := 1%nat)|].
  simpl.
  eapply rtc_l; [by apply step_handle with (i := 1%nat)|]. simpl.
  eapply rtc_l; [by apply step_handle with (i := 0%nat)|]. simpl.
  eapply rtc_l; [by apply step_next with (i := 0%nat)|]. simpl.
  eapply rtc_l; [by apply step_next with (i := 1%nat)|]. simpl.
  replace (delete "k" (appendRun ∅ m2)) with (∅ : gmap string (list kafka.Message))
    by (by vm_compute).
  eapply rtc_l; [apply step_close|].
  eapply rtc_l; [by apply step_exit with (i := 0%nat)|]. simpl.
  eapply rtc_l; [by apply step_exit with (i := 1%nat)|]. simpl.
  eapply rtc_l; [apply step_wait; by repeat constructor|].
  eapply rtc_l; [apply step_store|].
  eapply rtc_l; [apply step_store|].
  apply rtc_once. apply step_resume.
Defined.

(** C1 on that execution. *)
Lemma processPartition_stores_after_handling_witness :
  (∀ pre m post,
     ptrace returned = pre ++ StoreMessage m :: post →
     handled pre ≡ₚ batch ∧ stored pre ++ [m] `prefix_of` batch)
  ∧ (∀ m es, Handled m es ∈ ptrace returned → es = handleMessage consumer m fail)
  ∧ (main returned = Returned → stored (ptrace returned) = batch).
Proof.
  apply (processPartition_stores_after_handling consumer partition0 batch fail returned).
  exact returned_reach.
Defined.

(** C2 on four records, two of them with the key "a". *)
Lemma writePartitionedMessages_partitions_witness :
  ∃ keyed,
    [[m1]; [a1; a2]; [b1]] = ((λ m, [m]) <$> runFor "" [a1; m1; a2; b1]) ++ keyed
    ∧ keyed ≡ₚ (λ key, runFor key [a1; m1; a2; b1]) <$> elements (keysOf [a1; m1; a2; b1])
    ∧ mjoin [[m1]; [a1; a2]; [b1]] ≡ₚ [a1; m1; a2; b1].
Proof.
  apply (writePartitionedMessages_partitions [a1; m1; a2; b1] [[m1]; [a1; a2]; [b1]]).
  exists [[a1; a2]; [b1]]. split; [|reflexivity].
  vm_compute. first [reflexivity | apply perm_swap].
Defined.

(** C3 on the execution above: the handler failed on both records, and
    both offsets are stored. *)
Lemma handleMessage_swallows_errors_witness :
  handleMessage consumer m1 fail
  = [CallHandleEvent (podTopic "dev" "identity") plainEvent (Some "boom");
     LogErrorf "event handler failed: %v"]
  ∧ handleMessage consumer garbage fail
    = [LogErrorf "error converting message to event: %v"]
  ∧ stored (ptrace returned) = batch.
Proof.
  split; [reflexivity|]. split.
  - exact (proj1 (proj2 (proj2 (proj1 (handleMessage_swallows_errors
                                         consumer partition0 batch fail)
                                  garbage "identity__dev" eq_refl) eq_refl)
                    (podTopic "dev" "identity") eq_refl) eq_refl).
  - apply (proj1 (proj2 (handleMessage_swallows_errors consumer partition0 batch fail))
             returned returned_reach eq_refl).
Defined.

(** C4 for a base interval of half a second and a factor of 3/2. *)
Lemma run_backoff_discipline_witness :
  let c := newKafkaEventConsumer cfg false s3
             (NewExponentialBackOff (Second / 2) 3 2 (60 * Second)) in
  (∀ fuel w, backoffDiscipline (Second / 2) errorBackoffCap None (effects (run fuel c w)))
  ∧ (∀ n, Sorted Z.le (waits n (errorBackoff c))
          ∧ Forall (λ d, Second / 2 ≤ d ≤ errorBackoffCap) (waits n (errorBackoff c)))
  ∧ (∀ n batch,
       let failed := Nat.iter n (λ b, (NextBackOff b).2) (errorBackoff c) in
       (NextBackOff (errorBackoff (afterPoll (withBackoff c failed) (batch, None)).2)).1
       = Second / 2).
Proof.
  apply (run_backoff_discipline cfg false s3 (Second / 2) 3 2 (60 * Second)).
  - by vm_compute.
  - lia.
Defined.

(** C5 when the error comes after one message was polled, and when it
    comes first. *)
Lemma pollBatch_partial_batch_witness :
  pollBatch_loop (batchSize consumer) [Some (kafka.KafkaError "broker down")]
                 [false] polledOne
  = {| result := Returns (polledOne, None);
       effects := [Poll 0; LogErrorf "kafka error: %v"];
       world := {| ctxDone := []; polls := [] |} |}
  ∧ result (pollBatch consumer
              {| ctxDone := [false]; polls := [Some (kafka.KafkaError "broker down")] |})
    = Returns (newMessageBatch, Some (KafkaErr "broker down"))
  ∧ messageCount newMessageBatch = 0 ∧ held (messages newMessageBatch) = [].
Proof.
  split; [|split].
  - apply (proj1 (pollBatch_partial_batch consumer) [] [] polledOne "broker down").
    by vm_compute.
  - reflexivity.
  - apply (proj1 (proj2 (pollBatch_partial_batch consumer)) ltac:(by vm_compute)
             {| ctxDone := [false]; polls := [Some (kafka.KafkaError "broker down")] |}
             newMessageBatch "broker down").
    reflexivity.
Defined.

(** C6 on the placeholder whose content is the key of [largeEvent]. *)
Lemma toEvent_resolves_witness :
  toEvent consumer (podTopic "dev" "identity") m2 = inl largeEvent.
Proof.
  apply (proj1 (toEvent_resolves consumer (podTopic "dev" "identity") m2)
           placeholderEvent "identity/event-created-2.json" largeEvent);
    reflexivity.
Defined.

(** C7 on a record whose Kafka header names another group. *)
Lemma handleMessage_skips_other_groups_witness :
  handleMessage consumer forOther succeed = [].
Proof.
  apply (proj1 (handleMessage_skips_other_groups consumer forOther succeed)).
  - by vm_compute.
  - reflexivity.
Defined.

(** C10, as amended, on a record whose Kafka header is GROUPID = MINE and
    whose event carries groupId = Mine. *)
Lemma group_guards_fold_case_witness :
  handleMessage consumer forMine succeed
  = invokeHandler consumer succeed (podTopic "dev" "identity") plainEvent
  ∧ handlerInvoked (handleMessage consumer forMine succeed) = true.
Proof.
  apply (proj2 (proj2 (group_guards_fold_case consumer forMine succeed))
           "identity__dev" (podTopic "dev" "identity") plainEvent);
    try reflexivity; right; reflexivity.
Defined.

(** C10, as stated, fails twice.  The event of [eventForeign] names its
    group header GROUPID: a lookup under case folding finds the value
    "other", which does not fold to the consumer's group "mine", yet the
    second guard reads the exact key "groupId", finds nothing and the
    handler is called.  And [garbage] has no group header at all, and is
    not delivered: its payload does not parse. *)
Lemma group_guards_counterexample :
  (getHeader_from [{| kafka.HKey := "GROUPID"; kafka.HValue := "other" |}] HeaderKeyGroupID
   = "other"
   ∧ EqualFold "other" (GroupID (config consumer)) = false
   ∧ toEvent consumer (podTopic "dev" "identity") eventForeign = inl foreignEvent
   ∧ EHeaders foreignEvent = {[ "GROUPID" := "other" ]}
   ∧ handlerInvoked (handleMessage consumer eventForeign succeed) = true)
  ∧ (getHeader garbage HeaderKeyGroupID = ""
     ∧ handlerInvoked (handleMessage consumer garbage succeed) = false).
Proof. by vm_compute. Qed.

End Examples.
